(** * k6 [stats] package: metric types, tag sets, metrics and submetrics

    A shallow embedding of [stats/stats.go].  Go values that live behind
    pointers (tag sets, maps, map variables, [int] variables, metrics and
    submetrics) are kept in an explicit store, so that identity, aliasing
    and in-place updates read as they do in the Go code.  Every function
    of the package becomes a computation over that store which either
    returns or panics. *)

From Stdlib Require Import ZArith List Bool Lia Ascii String.
From Stdlib Require Import PrimFloat FloatOps SpecFloat.
From stdpp Require Import base option gmap strings list fin_maps pretty.

Local Open Scope Z_scope.

(** ** Go values *)

(** A Go [string] and a [[]byte] are both sequences of bytes; Rocq's
    [string] is a list of 8-bit characters. *)
Abbreviation bytes := string (only parsing).

(** The double quote, written by its code so that literals stay plain. *)
Definition dquote : ascii := "034"%char.
Definition squote : ascii := "039"%char.

(** A slice is [nil] or holds its elements. *)
Definition slice := option bytes.

(** Go's [len] on a string. *)
Definition len (s : string) : Z := Z.of_nat (String.length s).

(** [s[i:]] and [s[:i]]. *)
Fixpoint drop_bytes (n : nat) (s : string) : string :=
  match n, s with
  | O, _ => s
  | S n', String _ r => drop_bytes n' r
  | S _, EmptyString => EmptyString
  end.

Fixpoint take_bytes (n : nat) (s : string) : string :=
  match n, s with
  | O, _ => EmptyString
  | S n', String a r => String a (take_bytes n' r)
  | S _, EmptyString => EmptyString
  end.

(** ** Errors *)

(** [ErrInvalidMetricType] and [ErrInvalidValueType] are the package's two
    error values; the remaining constructors are the errors that
    [encoding/json] reports while decoding. *)
Inductive error :=
  | ErrInvalidMetricType
  | ErrInvalidValueType
  | json_SyntaxError
  | json_UnmarshalTypeError.

Global Instance error_eq_dec : EqDecision error.
Proof. solve_decision. Defined.

(** ** Constants *)

Definition quoted (s : string) : string :=
  String dquote (s +:+ String dquote EmptyString).

Definition counterString : string := Eval cbv in quoted "counter".
Definition gaugeString : string := Eval cbv in quoted "gauge".
Definition trendString : string := Eval cbv in quoted "trend".
Definition rateString : string := Eval cbv in quoted "rate".

Definition defaultString : string := Eval cbv in quoted "default".
Definition timeString : string := Eval cbv in quoted "time".
Definition dataString : string := Eval cbv in quoted "data".

(** [MetricType] and [ValueType] are named [int] types: any integer is a
    value of the type, the constants below are the declared ones. *)
Definition MetricType := Z.
Definition ValueType := Z.

Definition Counter : MetricType := 0.
Definition Gauge : MetricType := 1.
Definition Trend : MetricType := 2.
Definition Rate : MetricType := 3.

Definition Default : ValueType := 0.
Definition Time : ValueType := 1.
Definition Data : ValueType := 2.

(** ** The store *)

Definition loc := nat.

(** A pointer is [nil] or the address of an object. *)
Inductive ptr :=
  | nil
  | addr (l : loc).

Global Instance ptr_eq_dec : EqDecision ptr.
Proof. solve_decision. Defined.

(** [type SampleTags struct { tags map[string]string; json []byte }].
    A Go map value is a reference: [nil] or the address of a map object. *)
Record SampleTags := mkSampleTags {
  tags : ptr;
  json : slice
}.

(** [null.Bool] of gopkg.in/guregu/null.v3. *)
Record null_Bool := mkNullBool {
  Bool : bool;
  Valid : bool
}.

(** [Thresholds] is declared in another file of the package; only its zero
    value occurs here. *)
Inductive Thresholds := Thresholds_zero.

(** The [Sink] interface is implemented by four structs declared in
    another file of the package.  An interface value is [nil] or carries
    a pointer to one of them; [New] stores a pointer to a zero-valued
    struct, which is identified here by its dynamic type. *)
Inductive Sink :=
  | Sink_nil
  | CounterSink
  | GaugeSink
  | TrendSink
  | RateSink.

Global Instance Sink_eq_dec : EqDecision Sink.
Proof. solve_decision. Defined.

Record Submetric := mkSubmetric {
  Submetric_Name : string;
  Submetric_Parent : string;
  Submetric_Suffix : string;
  Submetric_Tags : ptr;    (* *SampleTags *)
  Submetric_Metric : ptr   (* *Metric *)
}.

Record Metric := mkMetric {
  Metric_Name : string;
  Metric_Type : MetricType;
  Metric_Contains : ValueType;
  Metric_Tainted : null_Bool;
  Metric_Thresholds : Thresholds;
  Metric_Submetrics : list ptr;   (* []*Submetric *)
  Metric_Sub : Submetric;
  Metric_Sink : Sink
}.

Record Store := mkStore {
  ints : gmap loc Z;                       (* variables of an int type *)
  maps : gmap loc (gmap string string);    (* map[string]string objects *)
  mapvars : gmap loc ptr;                  (* variables of type map[string]string *)
  tagsets : gmap loc SampleTags;           (* SampleTags structs *)
  submetrics : gmap loc Submetric;
  metrics : gmap loc Metric;
  next : loc                               (* the next address handed out *)
}.

Definition set_ints (f : gmap loc Z → gmap loc Z) (s : Store) : Store :=
  mkStore (f (ints s)) (maps s) (mapvars s) (tagsets s) (submetrics s) (metrics s) (next s).
Definition set_maps (f : gmap loc (gmap string string) → gmap loc (gmap string string))
    (s : Store) : Store :=
  mkStore (ints s) (f (maps s)) (mapvars s) (tagsets s) (submetrics s) (metrics s) (next s).
Definition set_mapvars (f : gmap loc ptr → gmap loc ptr) (s : Store) : Store :=
  mkStore (ints s) (maps s) (f (mapvars s)) (tagsets s) (submetrics s) (metrics s) (next s).
Definition set_tagsets (f : gmap loc SampleTags → gmap loc SampleTags) (s : Store) : Store :=
  mkStore (ints s) (maps s) (mapvars s) (f (tagsets s)) (submetrics s) (metrics s) (next s).
Definition set_submetrics (f : gmap loc Submetric → gmap loc Submetric) (s : Store) : Store :=
  mkStore (ints s) (maps s) (mapvars s) (tagsets s) (f (submetrics s)) (metrics s) (next s).
Definition set_metrics (f : gmap loc Metric → gmap loc Metric) (s : Store) : Store :=
  mkStore (ints s) (maps s) (mapvars s) (tagsets s) (submetrics s) (f (metrics s)) (next s).
Definition bump (s : Store) : Store :=
  mkStore (ints s) (maps s) (mapvars s) (tagsets s) (submetrics s) (metrics s) (S (next s)).

Definition empty_store : Store := mkStore ∅ ∅ ∅ ∅ ∅ ∅ 1%nat.

(** ** Computations that may panic *)

Inductive outcome (A : Type) :=
  | Ok (a : A)
  | Panic.
Arguments Ok {A} a.
Arguments Panic {A}.

Definition M (A : Type) : Type := Store → outcome (A * Store).

Global Instance M_ret : MRet M := λ A a s, Ok (a, s).
Global Instance M_bind : MBind M := λ A B f m s,
  match m s with
  | Ok (a, s') => f a s'
  | Panic => Panic
  end.

Definition panic {A} : M A := λ _, Panic.
Definition modify (f : Store → Store) : M unit := λ s, Ok (tt, f s).

(** Reading through a pointer: a nil pointer dereference panics.  An
    address outside the store does not arise in Go; it panics here too. *)
Definition deref {A} (heap : Store → gmap loc A) (p : ptr) : M A := λ s,
  match p with
  | nil => Panic
  | addr l => match heap s !! l with Some a => Ok (a, s) | None => Panic end
  end.

(** Writing through a pointer. *)
Definition assign {A} (heap : Store → gmap loc A)
    (set : (gmap loc A → gmap loc A) → Store → Store) (p : ptr) (a : A) : M unit :=
  _ ← deref heap p;
  match p with
  | nil => panic
  | addr l => modify (set <[l := a]>)
  end.

(** Allocation of a new object: [&T{...}], [make], or a local variable
    whose address is taken.  Addresses are handed out in increasing
    order, so the new address is one that no earlier allocation gave. *)
Definition alloc {A} (set : (gmap loc A → gmap loc A) → Store → Store) (a : A) : M ptr :=
  λ s, Ok (addr (next s), bump (set <[next s := a]> s)).

(** Indexing a slice value: out of range panics. *)
Definition index {A} (l : list A) (i : nat) : M A :=
  match l !! i with
  | Some a => mret a
  | None => panic
  end.

(** ** Type enumerations *)

Module MetricType_.

(** [func (t MetricType) MarshalJSON() ([]byte, error)] *)
Definition MarshalJSON (t : MetricType) : slice * option error :=
  if decide (t = Counter) then (Some counterString, None)
  else if decide (t = Gauge) then (Some gaugeString, None)
  else if decide (t = Trend) then (Some trendString, None)
  else if decide (t = Rate) then (Some rateString, None)
  else (None, Some ErrInvalidMetricType).

(** [func (t *MetricType) UnmarshalJSON(data []byte) error] *)
Definition UnmarshalJSON (t : ptr) (data : bytes) : M (option error) :=
  if decide (data = counterString) then assign ints set_ints t Counter;; mret None
  else if decide (data = gaugeString) then assign ints set_ints t Gauge;; mret None
  else if decide (data = trendString) then assign ints set_ints t Trend;; mret None
  else if decide (data = rateString) then assign ints set_ints t Rate;; mret None
  else mret (Some ErrInvalidMetricType).

(** [func (t MetricType) String() string] *)
Definition String (t : MetricType) : string :=
  if decide (t = Counter) then counterString
  else if decide (t = Gauge) then gaugeString
  else if decide (t = Trend) then trendString
  else if decide (t = Rate) then rateString
  else "[INVALID]".

End MetricType_.

Module ValueType_.

(** [func (t ValueType) MarshalJSON() ([]byte, error)] *)
Definition MarshalJSON (t : ValueType) : slice * option error :=
  if decide (t = Default) then (Some defaultString, None)
  else if decide (t = Time) then (Some timeString, None)
  else if decide (t = Data) then (Some dataString, None)
  else (None, Some ErrInvalidValueType).

(** [func (t *ValueType) UnmarshalJSON(data []byte) error] *)
Definition UnmarshalJSON (t : ptr) (data : bytes) : M (option error) :=
  if decide (data = defaultString) then assign ints set_ints t Default;; mret None
  else if decide (data = timeString) then assign ints set_ints t Time;; mret None
  else if decide (data = dataString) then assign ints set_ints t Data;; mret None
  else mret (Some ErrInvalidValueType).

(** [func (t ValueType) String() string] *)
Definition String (t : ValueType) : string :=
  if decide (t = Default) then defaultString
  else if decide (t = Time) then timeString
  else if decide (t = Data) then dataString
  else "[INVALID]".

End ValueType_.

(** ** The [strings] functions used by the package

    These follow the Go standard library.  [None] stands for the index
    [-1].  The cut sets and separators of this package are ASCII, for
    which trimming and searching work byte by byte. *)

Module strings.

(** [HasPrefix(s, prefix)] *)
Fixpoint HasPrefix (s prefix : string) {struct prefix} : bool :=
  match prefix, s with
  | EmptyString, _ => true
  | String a p, String b r => if decide (a = b) then HasPrefix r p else false
  | String _ _, EmptyString => false
  end.

(** [HasSuffix(s, suffix)]:
    [len(s) >= len(suffix) && s[len(s)-len(suffix):] == suffix] *)
Definition HasSuffix (s suffix : string) : bool :=
  bool_decide (len s >= len suffix) &&
  bool_decide (drop_bytes (String.length s - String.length suffix) s = suffix).

(** [TrimSuffix(s, suffix)] *)
Definition TrimSuffix (s suffix : string) : string :=
  if HasSuffix s suffix
  then take_bytes (String.length s - String.length suffix) s
  else s.

(** [Index(s, sep)]: the first position at which [sep] occurs. *)
Fixpoint Index (s sep : string) : option nat :=
  if HasPrefix s sep then Some O
  else match s with
       | EmptyString => None
       | String _ r => S <$> Index r sep
       end.

(** [Count(s, sep)] for a non-empty [sep]: the loop
    [for { i := Index(s, sep); if i == -1 { return n }; n++; s = s[i+len(sep):] }].
    Every round consumes at least one byte, so [length s] rounds are
    enough. *)
Fixpoint Count_loop (rounds : nat) (s sep : string) : nat :=
  match rounds with
  | O => O
  | S rounds' =>
      match Index s sep with
      | None => O
      | Some i => S (Count_loop rounds' (drop_bytes (i + String.length sep) s) sep)
      end
  end.

Definition Count (s sep : string) : Z :=
  Z.of_nat (Count_loop (String.length s) s sep).

(** The loop of [genSplit]:
    [for i < n { m := Index(s, sep); if m < 0 { break };
                 a[i] = s[:m+sepSave]; s = s[m+len(sep):]; i++ }
     a[i] = s; return a[:i+1]], run for at most [n] rounds. *)
Fixpoint genSplit_loop (n : nat) (s sep : string) (sepSave : nat) : list string :=
  match n with
  | O => [s]
  | S n' =>
      match Index s sep with
      | None => [s]
      | Some m =>
          take_bytes (m + sepSave) s
            :: genSplit_loop n' (drop_bytes (m + String.length sep) s) sep sepSave
      end
  end.

(** [explode(s, n)] splits into UTF-8 sequences.  It is reached only
    with an empty separator, which this package never passes; it is
    given here for single-byte characters. *)
Fixpoint explode (s : string) (n : nat) : list string :=
  match n, s with
  | O, _ => []
  | S O, _ => [s]
  | S n', String a r => String a EmptyString :: explode r n'
  | S _, EmptyString => []
  end.

(** [genSplit(s, sep, sepSave, n)] *)
Definition genSplit (s sep : string) (sepSave : nat) (n : Z) : list string :=
  if decide (n = 0) then []
  else if decide (sep = EmptyString)
  then explode s (if decide (n < 0) then String.length s else Z.to_nat n)
  else
    let n := if decide (n < 0) then Count s sep + 1 else n in
    let n := if decide (n > len s + 1) then len s + 1 else n in
    genSplit_loop (Z.to_nat (n - 1)) s sep sepSave.

(** [SplitN(s, sep, n)] and [Split(s, sep)] *)
Definition SplitN (s sep : string) (n : Z) : list string := genSplit s sep 0 n.
Definition Split (s sep : string) : list string := genSplit s sep 0 (-1).

(** Membership of a byte in an ASCII cut set. *)
Fixpoint contains_byte (set : string) (c : ascii) : bool :=
  match set with
  | EmptyString => false
  | String a r => if decide (a = c) then true else contains_byte r c
  end.

(** [TrimLeftFunc] and [TrimRightFunc] for a predicate that holds of
    ASCII characters only. *)
Fixpoint TrimLeftFunc (s : string) (f : ascii → bool) : string :=
  match s with
  | EmptyString => EmptyString
  | String a r => if f a then TrimLeftFunc r f else s
  end.

Fixpoint TrimRightFunc (s : string) (f : ascii → bool) : string :=
  match s with
  | EmptyString => EmptyString
  | String a r =>
      match TrimRightFunc r f with
      | EmptyString => if f a then EmptyString else String a EmptyString
      | r' => String a r'
      end
  end.

(** [Trim(s, cutset)] *)
Definition Trim (s cutset : string) : string :=
  if decide (s = EmptyString) then s
  else if decide (cutset = EmptyString) then s
  else TrimRightFunc (TrimLeftFunc s (contains_byte cutset)) (contains_byte cutset).

(** [unicode.IsSpace] on the UTF-8 encoding.  The white space
    characters are U+0009..U+000D, U+0020, U+0085, U+00A0, U+1680,
    U+2000..U+200A, U+2028, U+2029, U+202F, U+205F and U+3000; each has
    one encoding, of one, two or three bytes. *)
Definition space1 (a : ascii) : bool :=
  let n := N_of_ascii a in
  ((9 <=? n) && (n <=? 13) || (n =? 32))%N.

Definition space2 (a b : ascii) : bool :=
  let '(x, y) := (N_of_ascii a, N_of_ascii b) in
  ((x =? 194) && ((y =? 133) || (y =? 160)))%N.

Definition space3 (a b c : ascii) : bool :=
  let '(x, y, z) := (N_of_ascii a, N_of_ascii b, N_of_ascii c) in
  ((x =? 225) && (y =? 154) && (z =? 128)
   || (x =? 226) && (y =? 128)
      && ((128 <=? z) && (z <=? 138) || (z =? 168) || (z =? 169) || (z =? 175))
   || (x =? 226) && (y =? 129) && (z =? 159)
   || (x =? 227) && (y =? 128) && (z =? 128))%N.

(** Dropping leading characters recognised by [sp1], [sp2], [sp3]. *)
Fixpoint strip (sp1 : ascii → bool) (sp2 : ascii → ascii → bool)
    (sp3 : ascii → ascii → ascii → bool) (s : string) : string :=
  match s with
  | EmptyString => EmptyString
  | String a r =>
      if sp1 a then strip sp1 sp2 sp3 r
      else match r with
           | EmptyString => s
           | String b r1 =>
               if sp2 a b then strip sp1 sp2 sp3 r1
               else match r1 with
                    | EmptyString => s
                    | String c r2 =>
                        if sp3 a b c then strip sp1 sp2 sp3 r2 else s
                    end
           end
  end.

(** [TrimSpace(s)] is [TrimFunc(s, unicode.IsSpace)]: white space is
    dropped at the front, then at the back, where the bytes of a
    character are met last byte first. *)
Definition TrimLeftSpace (s : string) : string := strip space1 space2 space3 s.

Definition TrimRightSpace (s : string) : string :=
  String.rev
    (strip space1 (λ b a, space2 a b) (λ c b a, space3 a b c) (String.rev s)).

Definition TrimSpace (s : string) : string := TrimRightSpace (TrimLeftSpace s).

End strings.

(** ** Maps

    A value of type [map[string]string] is [nil] or the address of a map
    object.  Reading a nil map finds nothing; writing to it panics. *)

(** [v, ok := m[k]] *)
Definition map_lookup (m : ptr) (k : string) : M (string * bool) :=
  match m with
  | nil => mret (EmptyString, false)
  | addr _ =>
      kv ← deref maps m;
      mret (match kv !! k with
            | Some v => (v, true)
            | None => (EmptyString, false)
            end)
  end.

(** [m[k] = v] *)
Definition map_store (m : ptr) (k v : string) : M unit :=
  kv ← deref maps m;
  assign maps set_maps m (<[k := v]> kv).

(** [len(m)] *)
Definition map_len (m : ptr) : M Z :=
  match m with
  | nil => mret 0
  | addr _ => kv ← deref maps m; mret (Z.of_nat (size kv))
  end.

(** The entries that [for k, v := range m] visits, in some order. *)
Definition map_range (m : ptr) : M (list (string * string)) :=
  match m with
  | nil => mret []
  | addr _ => kv ← deref maps m; mret (map_to_list kv)
  end.

(** [for k, v := range entries { dst[k] = v }] *)
Fixpoint copy_entries (dst : ptr) (entries : list (string * string)) : M unit :=
  match entries with
  | [] => mret tt
  | (k, v) :: rest => map_store dst k v;; copy_entries dst rest
  end.

(** ** [encoding/json] on tag maps

    A decoded document, as far as this development tells documents
    apart: [null], an object all of whose members are strings (the
    members in document order), or any other valid document. *)
Inductive JSON :=
  | JSON_null
  | JSON_object (members : list (string * string))
  | JSON_other.

Section SampleTags.

(** The scanner of [encoding/json]: [None] for a document that is not
    valid JSON. *)
Variable json_scan : bytes → option JSON.

(** What [json.Unmarshal] does to a map variable on a document that is
    neither [null] nor an object of strings: it reports a type error,
    after whatever it has stored before meeting the mismatch. *)
Variable json_Unmarshal_other : bytes → ptr → M (ptr * option error).

(** The encoding of a non-nil [map[string]string] as a JSON object. *)
Variable json_encode_object : gmap string string → bytes.

(** Storing the members of an object into the map, in document order. *)
Fixpoint store_members (m : ptr) (members : list (string * string)) : M unit :=
  match members with
  | [] => mret tt
  | (k, v) :: rest => map_store m k v;; store_members m rest
  end.

(** [json.Unmarshal(data, &v)] for [v] of type [map[string]string];
    the result carries the value of [v] after the call.  Invalid input
    changes nothing.  [null] sets [v] to nil.  For an object, if the
    map is nil a new map is allocated; otherwise the existing map is
    reused and keeps its entries. *)
Definition json_Unmarshal (data : bytes) (v : ptr) : M (ptr * option error) :=
  match json_scan data with
  | None => mret (v, Some json_SyntaxError)
  | Some JSON_null => mret (nil, None)
  | Some (JSON_object members) =>
      m ← (if decide (v = nil) then alloc set_maps ∅ else mret v);
      store_members m members;;
      mret (m, None)
  | Some JSON_other => json_Unmarshal_other data v
  end.

(** [json.Marshal(v)] for [v] of type [map[string]string]: a nil map is
    encoded as [null]; encoding a map of strings does not fail. *)
Definition json_Marshal (v : ptr) : M (slice * option error) :=
  match v with
  | nil => mret (Some "null"%string, None)
  | addr _ => kv ← deref maps v; mret (Some (json_encode_object kv), None)
  end.

(** [func (st *SampleTags) Get(key string) (string, bool)] *)
Definition Get (st : ptr) (key : string) : M (string * bool) :=
  if decide (st = nil) then mret (EmptyString, false)
  else
    t ← deref tagsets st;
    map_lookup (tags t) key.

(** The loop of [IsEqual]:
    [for k, v := range st.tags {
       if otherv, ok := other.tags[k]; !ok || v != otherv { return false } }
     return true] *)
Fixpoint IsEqual_loop (other_tags : ptr) (entries : list (string * string)) : M bool :=
  match entries with
  | [] => mret true
  | (k, v) :: rest =>
      '(otherv, ok) ← map_lookup other_tags k;
      if negb ok || negb (bool_decide (v = otherv)) then mret false
      else IsEqual_loop other_tags rest
  end.

(** [func (st *SampleTags) IsEqual(other *SampleTags) bool] *)
Definition IsEqual (st other : ptr) : M bool :=
  if decide (st = other) then mret true
  else if decide (st = nil) then mret false
  else if decide (other = nil) then mret false
  else
    a ← deref tagsets st;
    b ← deref tagsets other;
    la ← map_len (tags a);
    lb ← map_len (tags b);
    if decide (la ≠ lb) then mret false
    else
      entries ← map_range (tags a);
      IsEqual_loop (tags b) entries.

(** [func (st *SampleTags) MarshalJSON() ([]byte, error)] *)
Definition MarshalJSON (st : ptr) : M (slice * option error) :=
  if decide (st = nil) then mret (Some "null"%string, None)
  else
    t ← deref tagsets st;
    match json t with
    | Some cached => mret (Some cached, None)
    | None =>
        '(res, err) ← json_Marshal (tags t);
        match err with
        | Some e => mret (res, Some e)
        | None =>
            assign tagsets set_tagsets st (mkSampleTags (tags t) res);;
            mret (res, None)
        end
    end.

(** [func (st *SampleTags) UnmarshalJSON(data []byte) error] *)
Definition UnmarshalJSON (st : ptr) (data : bytes) : M (option error) :=
  (if decide (st = nil)
   then assign tagsets set_tagsets st (mkSampleTags nil None)
   else mret tt);;
  t ← deref tagsets st;
  '(m, err) ← json_Unmarshal data (tags t);
  assign tagsets set_tagsets st (mkSampleTags m (json t));;
  mret err.

(** [func (st *SampleTags) CloneTags() map[string]string] *)
Definition CloneTags (st : ptr) : M ptr :=
  res ← alloc set_maps ∅;
  (if decide (st ≠ nil)
   then t ← deref tagsets st;
        entries ← map_range (tags t);
        copy_entries res entries
   else mret tt);;
  mret res.

End SampleTags.

(** [func NewSampleTags(data map[string]string) *SampleTags] *)
Definition NewSampleTags (data : ptr) : M ptr :=
  tags ← alloc set_maps ∅;
  entries ← map_range data;
  copy_entries tags entries;;
  alloc set_tagsets (mkSampleTags tags None).

(** [func IntoSampleTags(data *map[string]string) *SampleTags] *)
Definition IntoSampleTags (data : ptr) : M ptr :=
  m ← deref mapvars data;
  res ← alloc set_tagsets (mkSampleTags m None);
  assign mapvars set_mapvars data nil;;
  mret res.

(** ** Metrics *)

Definition Submetric_zero : Submetric :=
  mkSubmetric EmptyString EmptyString EmptyString nil nil.

(** [&Metric{Name: name, Type: typ, Contains: vt, Sink: sink}] *)
Definition new_Metric (name : string) (typ : MetricType) (vt : ValueType)
    (sink : Sink) : M ptr :=
  alloc set_metrics
    (mkMetric name typ vt (mkNullBool false false) Thresholds_zero [] Submetric_zero sink).

(** [func New(name string, typ MetricType, t ...ValueType) *Metric] *)
Definition New (name : string) (typ : MetricType) (t : list ValueType) : M ptr :=
  let vt := match t with
            | [] => Default
            | t0 :: _ => t0
            end in
  if decide (typ = Counter) then new_Metric name typ vt CounterSink
  else if decide (typ = Gauge) then new_Metric name typ vt GaugeSink
  else if decide (typ = Trend) then new_Metric name typ vt TrendSink
  else if decide (typ = Rate) then new_Metric name typ vt RateSink
  else mret nil.

(** [HumanizeValue] is given below, after the conversions of [float64];
    [Summary] delegates to the [Format] method of the sink, which is
    declared in another file, and is not part of this development. *)

(** ** Submetrics *)

(** The cut set of [NewSubmetric]: the double and the single quote. *)
Definition quotes : string := String dquote (String squote EmptyString).

(** The body of the loop over the filter clauses. *)
Definition NewSubmetric_clause (tags : ptr) (kv : string) : M unit :=
  if decide (kv = EmptyString) then mret tt
  else
    let parts := strings.SplitN kv ":" 2 in
    p0 ← index parts 0;
    let key := strings.TrimSpace (strings.Trim p0 quotes) in
    if decide (length parts ≠ 2%nat) then map_store tags key EmptyString
    else
      p1 ← index parts 1;
      let value := strings.TrimSpace (strings.Trim p1 quotes) in
      map_store tags key value.

Fixpoint NewSubmetric_loop (tags : ptr) (kvs : list string) : M unit :=
  match kvs with
  | [] => mret tt
  | kv :: rest => NewSubmetric_clause tags kv;; NewSubmetric_loop tags rest
  end.

(** [func NewSubmetric(name string) (parentName string, sm *Submetric)] *)
Definition NewSubmetric (name : string) : M (string * ptr) :=
  let parts := strings.SplitN (strings.TrimSuffix name "}") "{" 2 in
  if decide (length parts = 1%nat) then
    p0 ← index parts 0;
    sm ← alloc set_submetrics (mkSubmetric name EmptyString EmptyString nil nil);
    mret (p0, sm)
  else
    p1 ← index parts 1;
    let kvs := strings.Split p1 "," in
    tags ← alloc set_maps ∅;
    NewSubmetric_loop tags kvs;;
    p0 ← index parts 0;
    tagsvar ← alloc set_mapvars tags;
    st ← IntoSampleTags tagsvar;
    sm ← alloc set_submetrics (mkSubmetric name p0 p1 st nil);
    mret (p0, sm).

(** ** The closed enumerations and their literals *)

Definition metric_types : list MetricType := [Counter; Gauge; Trend; Rate].
Definition value_types : list ValueType := [Default; Time; Data].
Definition metric_literals : list string :=
  [counterString; gaugeString; trendString; rateString].
Definition value_literals : list string := [defaultString; timeString; dataString].

(** ** A scanner for flat documents

    An instance of the scanner for running the decoder on concrete
    documents.  It reads the fragment of JSON made of [null] and of
    objects whose members are strings of printable ASCII characters with
    the two-character escapes, with white space between tokens.  On this
    fragment it reads a document as [encoding/json] does; it answers
    [None] on everything else. *)

Inductive scan_state :=
  | scan_start
  | scan_literal (rest : string)
  | scan_key_or_end
  | scan_key (acc : list (string * string))
  | scan_in_key (acc : list (string * string)) (k : string) (esc : bool)
  | scan_colon (acc : list (string * string)) (k : string)
  | scan_value (acc : list (string * string)) (k : string)
  | scan_in_value (acc : list (string * string)) (k v : string) (esc : bool)
  | scan_comma_or_end (acc : list (string * string))
  | scan_end (doc : JSON).

Definition json_space (c : ascii) : bool :=
  let n := N_of_ascii c in ((n =? 32) || (n =? 9) || (n =? 10) || (n =? 13))%N.

Definition json_unescape (c : ascii) : option ascii :=
  let n := N_of_ascii c in
  if (n =? 34)%N then Some c                     (* quote *)
  else if (n =? 92)%N then Some c                (* backslash *)
  else if (n =? 47)%N then Some c                (* slash *)
  else if (n =? 98)%N then Some "008"%char       (* b *)
  else if (n =? 102)%N then Some "012"%char      (* f *)
  else if (n =? 110)%N then Some "010"%char      (* n *)
  else if (n =? 114)%N then Some "013"%char      (* r *)
  else if (n =? 116)%N then Some "009"%char      (* t *)
  else None.

Definition snoc_byte (s : string) (c : ascii) : string := s +:+ String c EmptyString.

(** One character inside a string: [continue] with a longer string,
    [close] at the closing quote. *)
Definition scan_char {A} (c : ascii) (str : string) (esc : bool)
    (continue : string → bool → A) (close : A) : option A :=
  let n := N_of_ascii c in
  if esc then (d ← json_unescape c; Some (continue (snoc_byte str d) false))
  else if (n =? 34)%N then Some close
  else if (n =? 92)%N then Some (continue str true)
  else if ((n <? 32) || (126 <? n))%N then None
  else Some (continue (snoc_byte str c) false).

Definition scan_step (st : scan_state) (c : ascii) : option scan_state :=
  let n := N_of_ascii c in
  match st with
  | scan_start =>
      if json_space c then Some scan_start
      else if (n =? 123)%N then Some scan_key_or_end
      else if (n =? 110)%N then Some (scan_literal "ull")
      else None
  | scan_literal rest =>
      match rest with
      | String a EmptyString => if decide (c = a) then Some (scan_end JSON_null) else None
      | String a r => if decide (c = a) then Some (scan_literal r) else None
      | EmptyString => None
      end
  | scan_key_or_end =>
      if json_space c then Some st
      else if (n =? 125)%N then Some (scan_end (JSON_object []))
      else if (n =? 34)%N then Some (scan_in_key [] EmptyString false)
      else None
  | scan_key acc =>
      if json_space c then Some st
      else if (n =? 34)%N then Some (scan_in_key acc EmptyString false)
      else None
  | scan_in_key acc k esc => scan_char c k esc (scan_in_key acc) (scan_colon acc k)
  | scan_colon acc k =>
      if json_space c then Some st
      else if (n =? 58)%N then Some (scan_value acc k)
      else None
  | scan_value acc k =>
      if json_space c then Some st
      else if (n =? 34)%N then Some (scan_in_value acc k EmptyString false)
      else None
  | scan_in_value acc k v esc =>
      scan_char c v esc (scan_in_value acc k)
        (scan_comma_or_end (acc ++ [(k, v)]))
  | scan_comma_or_end acc =>
      if json_space c then Some st
      else if (n =? 44)%N then Some (scan_key acc)
      else if (n =? 125)%N then Some (scan_end (JSON_object acc))
      else None
  | scan_end doc => if json_space c then Some st else None
  end.

Definition unmarshal_other (data : bytes) (v : ptr) : M (ptr * option error) :=
  mret (v, Some json_UnmarshalTypeError).

Definition scan_flat (data : bytes) : option JSON :=
  match foldl (λ st c, st ≫= λ st, scan_step st c) (Some scan_start)
          (list_ascii_of_string data) with
  | Some (scan_end doc) => Some doc
  | _ => None
  end.

(** The members of a JSON object as a finite map: a later member
    replaces an earlier one with the same key. *)
Definition decoded_object (members : list (string * string)) : gmap string string :=
  list_to_map (reverse members).

(** ** The filter syntax of submetric names, as the specification words it *)

(** The pieces of a string between the occurrences of a character. *)
Definition extend_first (a : ascii) (l : list string) : list string :=
  match l with
  | piece :: rest => String a piece :: rest
  | [] => [String a EmptyString]
  end.

Fixpoint pieces (c : ascii) (s : string) : list string :=
  match s with
  | EmptyString => [EmptyString]
  | String a r =>
      if decide (a = c) then EmptyString :: pieces c r
      else extend_first a (pieces c r)
  end.

(** A string cut at the first occurrence of a character, if there is
    one: what is before it, and what is after it. *)
Fixpoint cut (c : ascii) (s : string) : string * option string :=
  match s with
  | EmptyString => (EmptyString, None)
  | String a r =>
      if decide (a = c) then (EmptyString, Some r)
      else (String a (cut c r).1, (cut c r).2)
  end.

Fixpoint count_byte (c : ascii) (s : string) : nat :=
  match s with
  | EmptyString => O
  | String a r => if decide (a = c) then S (count_byte c r) else count_byte c r
  end.

Fixpoint all_bytes (f : ascii → bool) (s : string) : bool :=
  match s with
  | EmptyString => true
  | String a r => f a && all_bytes f r
  end.

(** The clauses of a filter body are its pieces between commas. *)
Definition clauses (body : string) : list string := pieces "," body.

(** Quoting characters, then surrounding white space, are trimmed. *)
Definition trimmed (s : string) : string := strings.TrimSpace (strings.Trim s quotes).

(** The key and the value of a clause: the clause is cut at its first
    colon; without a colon the value is the empty string. *)
Definition clause_tag (clause : string) : string * string :=
  match cut ":" clause with
  | (k, Some v) => (trimmed k, trimmed v)
  | (k, None) => (trimmed k, EmptyString)
  end.

(** The key/value pairs of a filter body, in the order of the clauses;
    empty clauses are skipped. *)
Definition clause_tags (body : string) : list (string * string) :=
  clause_tag <$> filter (λ clause, clause ≠ EmptyString) (clauses body).

(** The tags of a filter body: of several pairs with the same key the
    last one counts. *)
Definition filter_tags (body : string) : gmap string string :=
  list_to_map (reverse (clause_tags body)).

(** What one round of the loop over the clauses does to the map. *)
Definition clause_step (tags : gmap string string) (clause : string) : gmap string string :=
  if decide (clause = EmptyString) then tags
  else <[(clause_tag clause).1 := (clause_tag clause).2]> tags.

(** ** Stores for the examples *)

(** An [int] variable at address 1. *)
Definition int_store : Store := set_ints <[1%nat := 7]> empty_store.

(** A tag set at address 2 over the map [{a: 1}] at address 1, and an
    empty, non-nil tag set at address 4 over the empty map at address 3;
    a map variable at address 5 holding the map at address 1. *)
Definition tag_store : Store :=
  mkStore ∅
    (<[1%nat := {["a"%string := "1"%string]}]> (<[3%nat := ∅]> ∅))
    (<[5%nat := addr 1%nat]> ∅)
    (<[2%nat := mkSampleTags (addr 1%nat) None]> (<[4%nat := mkSampleTags (addr 3%nat) None]> ∅))
    ∅ ∅ 6%nat.

(** Two tag sets, at addresses 3 and 4, over two maps with the same two
    entries, at addresses 1 and 2. *)
Definition twin_store : Store :=
  mkStore ∅
    (<[1%nat := {["a"%string := "1"%string; "b"%string := "2"%string]}]>
       (<[2%nat := {["b"%string := "2"%string; "a"%string := "1"%string]}]> ∅))
    ∅
    (<[3%nat := mkSampleTags (addr 1%nat) None]> (<[4%nat := mkSampleTags (addr 2%nat) None]> ∅))
    ∅ ∅ 5%nat.

(** The document [{ b : 2 }] with both strings quoted. *)
Definition doc_b : bytes :=
  Eval cbv in ("{" +:+ quoted "b" +:+ ":" +:+ quoted "2" +:+ "}")%string.

(** ** Reading a store *)

(** What [v, ok := m[key]] gives on a map with entries [kv]. *)
Definition lookup_result (kv : gmap string string) (key : string) : string * bool :=
  match kv !! key with
  | Some v => (v, true)
  | None => (EmptyString, false)
  end.

(** The entries reached through a map reference: none through nil. *)
Definition map_contents (s : Store) (m : ptr) : option (gmap string string) :=
  match m with
  | nil => Some ∅
  | addr l => maps s !! l
  end.

(** No map object and no tag set lives at an address that is still to be
    handed out. *)
Definition unused_from (s : Store) : Prop :=
  ∀ l, (next s ≤ l)%nat → maps s !! l = None ∧ tagsets s !! l = None.

(** The first and the last byte of a string. *)
Definition first_byte (s : string) : option ascii :=
  match s with
  | EmptyString => None
  | String a _ => Some a
  end.

Fixpoint last_byte (s : string) : option ascii :=
  match s with
  | EmptyString => None
  | String a EmptyString => Some a
  | String _ r => last_byte r
  end.

(** Neither end of the string is an ASCII white space character. *)
Definition no_space_ends (s : string) : Prop :=
  (∀ a, first_byte s = Some a → strings.space1 a = false) ∧
  (∀ a, last_byte s = Some a → strings.space1 a = false).

(** A pointer to a tag set is nil, or the address of a tag set whose map
    is there to be read. *)
Definition tagset_ok (s : Store) (p : ptr) : Prop :=
  match p with
  | nil => True
  | addr l => ∃ t kv, tagsets s !! l = Some t ∧ map_contents s (tags t) = Some kv
  end.

(** The store after [NewSubmetric] has run on a name with a filter: a
    map with the tags, the loop's map variable, set to nil, the tag set
    and the submetric have been added at the next four addresses. *)
Definition store_with_filter (s : Store) (name parent body : string) : Store :=
  mkStore (ints s)
    (<[next s := filter_tags body]> (maps s))
    (<[S (next s) := nil]> (mapvars s))
    (<[S (S (next s)) := mkSampleTags (addr (next s)) None]> (tagsets s))
    (<[S (S (S (next s))) :=
         mkSubmetric name parent body (addr (S (S (next s)))) nil]> (submetrics s))
    (metrics s)
    (S (S (S (S (next s))))).

(** ** [float64] and its conversions

    A [float64] is a binary64 number, with the arithmetic of IEEE 754:
    the primitive floats.  [Prim2SF] reads a float as a zero, an
    infinity, a NaN, or a sign, a mantissa [m] and an exponent [e] that
    stand for the number [m * 2^e]. *)

(** The integer part of a float, the fraction dropped; none for a NaN
    or an infinity. *)
Definition float64_trunc (x : float) : option Z :=
  match Prim2SF x with
  | S754_zero _ => Some 0
  | S754_finite sign m e =>
      let a := if decide (0 <= e) then Zpos m * 2 ^ e else Zpos m / 2 ^ (- e) in
      Some (if sign then - a else a)
  | S754_infinity _ => None
  | S754_nan => None
  end.

(** The conversion [float64(n)] of an integer: the nearest float, the
    even one of two that are equally near. *)
Definition float64_of_int (n : Z) : float :=
  SF2Prim (binary_normalize prec emax n 0 false).

Module strconv.

Definition digit (d : Z) : ascii := ascii_of_N (48 + Z.to_N d).

(** The last [width] decimal digits of [n]. *)
Fixpoint digits (width : nat) (n : Z) : string :=
  match width with
  | O => EmptyString
  | S width' => digits width' (n / 10) +:+ String (digit (n mod 10)) EmptyString
  end.

(** The integer nearest to [num * 2^e], the even one of two that are
    equally near. *)
Definition round_half_even (num e : Z) : Z :=
  if decide (0 <= e) then num * 2 ^ e
  else
    let d := 2 ^ (- e) in
    let q := num / d in
    let r := num mod d in
    if decide (2 * r < d) then q
    else if decide (d < 2 * r) then q + 1
    else if Z.even q then q else q + 1.

(** [h] hundredths, thousandths, ... written with [prec] digits after
    the point. *)
Definition fixed (h : Z) (prec : nat) : string :=
  pretty (Z.to_N (h / 10 ^ Z.of_nat prec)) +:+
  match prec with
  | O => EmptyString
  | S _ => "." +:+ digits prec (h mod 10 ^ Z.of_nat prec)
  end.

(** [FormatFloat(x, 'f', prec, 64)]: the decimal form without exponent,
    with [prec] digits after the point, correctly rounded. *)
Definition FormatFloat_f (x : float) (prec : nat) : string :=
  match Prim2SF x with
  | S754_nan => "NaN"
  | S754_infinity false => "+Inf"
  | S754_infinity true => "-Inf"
  | S754_zero sign => (if sign then "-" else "") +:+ fixed 0 prec
  | S754_finite sign m e =>
      (if sign then "-" else "") +:+
      fixed (round_half_even (Zpos m * 10 ^ Z.of_nat prec) e) prec
  end%string.

End strconv.

(** The constants of package [time], in nanoseconds. *)
Definition time_Nanosecond : Z := 1.
Definition time_Microsecond : Z := 1000 * time_Nanosecond.
Definition time_Millisecond : Z := 1000 * time_Microsecond.
Definition time_Second : Z := 1000 * time_Millisecond.
Definition time_Minute : Z := 60 * time_Second.

Section HumanizeValue.

(** What the conversions [int(x)] and [uint64(x)] give when the integer
    part of [x] is not a value of the type: the language leaves it to
    the implementation. *)
Variable int_of_unrepresentable : float → Z.
Variable uint64_of_unrepresentable : float → Z.

(** [ToD], declared in another file of the package: the duration, in
    nanoseconds, that a value stands for. *)
Variable ToD : float → Z.

(** [time.Duration.String], [humanize.Bytes] and [humanize.Ftoa]. *)
Variable Duration_String : Z → string.
Variable humanize_Bytes : Z → string.
Variable humanize_Ftoa : float → string.

(** [int(x)] for a [float64], [int] being 64 bits wide. *)
Definition float64_to_int (x : float) : Z :=
  match float64_trunc x with
  | Some n =>
      if decide (- 2 ^ 63 <= n < 2 ^ 63) then n else int_of_unrepresentable x
  | None => int_of_unrepresentable x
  end.

(** [uint64(x)] for a [float64]. *)
Definition float64_to_uint64 (x : float) : Z :=
  match float64_trunc x with
  | Some n =>
      if decide (0 <= n < 2 ^ 64) then n else uint64_of_unrepresentable x
  | None => uint64_of_unrepresentable x
  end.

(** [func (m *Metric) HumanizeValue(v float64) string] *)
Definition HumanizeValue (m : ptr) (v : float) : M string :=
  metric ← deref metrics m;
  if decide (Metric_Type metric = Rate) then
    mret (strconv.FormatFloat_f
            (float64_of_int (float64_to_int (v * 100 * 100)) / 100)%float 2
          +:+ "%")
  else if decide (Metric_Contains metric = Time) then
    let d := ToD v in
    let d :=
      if decide (d > time_Minute) then d - Z.rem d (1 * time_Second)
      else if decide (d > time_Second) then d - Z.rem d (10 * time_Millisecond)
      else if decide (d > time_Millisecond) then d - Z.rem d (10 * time_Microsecond)
      else if decide (d > time_Microsecond) then d - Z.rem d (10 * time_Nanosecond)
      else d in
    mret (Duration_String d)
  else if decide (Metric_Contains metric = Data) then
    mret (humanize_Bytes (float64_to_uint64 v))
  else mret (humanize_Ftoa v).

End HumanizeValue.


(** The [float64] values nearest to 0.12345, 0.12349, 0.29 and 0.35. *)
Definition rate_12345 : float := 0x1.f9a6b50b0f27cp-4%float.
Definition rate_12349 : float := 0x1.f9d0a67620ee9p-4%float.
Definition rate_29 : float := 0x1.28f5c28f5c28fp-2%float.
Definition rate_35 : float := 0x1.6666666666666p-2%float.

(** A store with a rate metric at address 1. *)
Definition rate_store : Store :=
  set_metrics
    <[1%nat := mkMetric "checks" Rate Default (mkNullBool false false) Thresholds_zero []
                 Submetric_zero RateSink]>
    empty_store.

(** ** Trimming, as the specification words it *)

(** The string with the given byte codes. *)
Definition utf8 (codes : list N) : string :=
  foldr (λ n s, String (ascii_of_N n) s) EmptyString codes.

(** The quoting characters: the double and the single quote. *)
Definition quote_marks : list string :=
  [String dquote EmptyString; String squote EmptyString].

(** The white space characters, each by its UTF-8 encoding: U+0009 to
    U+000D, U+0020, U+0085, U+00A0, U+1680, U+2000 to U+200A, U+2028,
    U+2029, U+202F, U+205F and U+3000. *)
Definition white_space : list string :=
  utf8 <$>
  [
   [9%N]; [10%N]; [11%N]; [12%N]; [13%N]; [32%N]; [194%N; 133%N];
   [194%N; 160%N]; [225%N; 154%N; 128%N]; [226%N; 128%N; 128%N];
   [226%N; 128%N; 129%N]; [226%N; 128%N; 130%N]; [226%N; 128%N; 131%N];
   [226%N; 128%N; 132%N]; [226%N; 128%N; 133%N]; [226%N; 128%N; 134%N];
   [226%N; 128%N; 135%N]; [226%N; 128%N; 136%N]; [226%N; 128%N; 137%N];
   [226%N; 128%N; 138%N]; [226%N; 128%N; 168%N]; [226%N; 128%N; 169%N];
   [226%N; 128%N; 175%N]; [226%N; 129%N; 159%N]; [227%N; 128%N; 128%N]
  ].

(** A string made of marks only. *)
Inductive made_of (marks : list string) : string → Prop :=
  | made_of_empty : made_of marks EmptyString
  | made_of_more (r s : string) :
      r ∈ marks → made_of marks s → made_of marks (r +:+ s).

Definition begins_with (r s : string) : Prop := ∃ rest, s = r +:+ rest.
Definition ends_with (r s : string) : Prop := ∃ front, s = front +:+ r.

(** [t] is [s] with the marks at its two ends taken away: what was taken
    away at either end is made of marks, and [t] neither begins nor ends
    with a mark. *)
Definition trimmed_of (marks : list string) (s t : string) : Prop :=
  (∃ front back,
     s = front +:+ t +:+ back ∧ made_of marks front ∧ made_of marks back) ∧
  (∀ r, r ∈ marks → ¬ begins_with r t) ∧
  (∀ r, r ∈ marks → ¬ ends_with r t).

(** The three predicates tell the marks of one, two and three bytes. *)
Definition recognises (sp1 : ascii → bool) (sp2 : ascii → ascii → bool)
    (sp3 : ascii → ascii → ascii → bool) (marks : list string) : Prop :=
  (∀ a, sp1 a = true ↔ String a EmptyString ∈ marks) ∧
  (∀ a b, sp2 a b = true ↔ String a (String b EmptyString) ∈ marks) ∧
  (∀ a b c, sp3 a b c = true ↔ String a (String b (String c EmptyString)) ∈ marks) ∧
  (∀ r, r ∈ marks →
        (∃ a, r = String a EmptyString) ∨
        (∃ a b, r = String a (String b EmptyString)) ∨
        (∃ a b c, r = String a (String b (String c EmptyString)))).

(** * Properties *)

(** Running a computation: unfold the monad down to the store. *)
Ltac run :=
  unfold assign, deref, alloc, modify, panic, index;
  unfold mbind, M_bind, mret, M_ret;
  simpl.

Lemma bind_Ok {A B} (m : M A) (f : A → M B) s a s' :
  m s = Ok (a, s') → (m ≫= f) s = f a s'.
Proof. intros H. unfold mbind, M_bind. by rewrite H. Qed.

Lemma assign_Ok {A} (heap : Store → gmap loc A) set l (a a0 : A) s :
  heap s !! l = Some a0 →
  assign heap set (addr l) a s = Ok (tt, set <[l := a]> s).
Proof. intros H. run. by rewrite H. Qed.

(** ** Type enumerations *)

Section enumerations.

(** The variable that the pointer receiver of a decoder points to. *)
Variables (s : Store) (l : loc) (v0 : Z).
Hypothesis Hl : ints s !! l = Some v0.

Lemma MetricType_decode_literal (data : bytes) (v : MetricType) :
  (data, v) ∈ zip metric_literals metric_types →
  MetricType_.UnmarshalJSON (addr l) data s = Ok (None, set_ints <[l := v]> s).
Proof.
  unfold metric_literals, metric_types. simpl.
  rewrite !elem_of_cons, elem_of_nil.
  intros [H|[H|[H|[H|[]]]]]; inversion H; subst;
    unfold MetricType_.UnmarshalJSON; simpl;
    by rewrite (bind_Ok _ _ _ _ _ (assign_Ok ints set_ints l _ v0 s Hl)).
Qed.

Lemma ValueType_decode_literal (data : bytes) (v : ValueType) :
  (data, v) ∈ zip value_literals value_types →
  ValueType_.UnmarshalJSON (addr l) data s = Ok (None, set_ints <[l := v]> s).
Proof.
  unfold value_literals, value_types. simpl.
  rewrite !elem_of_cons, elem_of_nil.
  intros [H|[H|[H|[]]]]; inversion H; subst;
    unfold ValueType_.UnmarshalJSON; simpl;
    by rewrite (bind_Ok _ _ _ _ _ (assign_Ok ints set_ints l _ v0 s Hl)).
Qed.

Lemma MetricType_encode (v : MetricType) :
  v ∈ metric_types →
  ∃ b, MetricType_.MarshalJSON v = (Some b, None) ∧ (b, v) ∈ zip metric_literals metric_types.
Proof.
  unfold metric_types, metric_literals. rewrite !elem_of_cons, elem_of_nil.
  intros [->|[->|[->|[->|[]]]]]; eexists; (split; [reflexivity|]); simpl;
    rewrite !elem_of_cons; tauto.
Qed.

Lemma ValueType_encode (v : ValueType) :
  v ∈ value_types →
  ∃ b, ValueType_.MarshalJSON v = (Some b, None) ∧ (b, v) ∈ zip value_literals value_types.
Proof.
  unfold value_types, value_literals. rewrite !elem_of_cons, elem_of_nil.
  intros [->|[->|[->|[]]]]; eexists; (split; [reflexivity|]); simpl;
    rewrite !elem_of_cons; tauto.
Qed.

(** C6: for each of Counter, Gauge, Trend, Rate, and for each of
    Default, Time, Data, [MarshalJSON] produces bytes without error,
    and [UnmarshalJSON] on those bytes returns no error and leaves the
    original value in the receiver's variable:
    decode(encode(v)) = v. *)
Theorem enum_roundtrip :
  (∀ v, v ∈ metric_types →
     ∃ b s', MetricType_.MarshalJSON v = (Some b, None) ∧
             MetricType_.UnmarshalJSON (addr l) b s = Ok (None, s') ∧
             ints s' !! l = Some v) ∧
  (∀ v, v ∈ value_types →
     ∃ b s', ValueType_.MarshalJSON v = (Some b, None) ∧
             ValueType_.UnmarshalJSON (addr l) b s = Ok (None, s') ∧
             ints s' !! l = Some v).
Proof.
  split; intros v Hv.
  - destruct (MetricType_encode v Hv) as (b & Hb & Hz).
    exists b, (set_ints <[l := v]> s). split; [done|]. split.
    + by apply MetricType_decode_literal.
    + simpl. apply lookup_insert_eq.
  - destruct (ValueType_encode v Hv) as (b & Hb & Hz).
    exists b, (set_ints <[l := v]> s). split; [done|]. split.
    + by apply ValueType_decode_literal.
    + simpl. apply lookup_insert_eq.
Qed.

(** C7: [MetricType.UnmarshalJSON] returns [ErrInvalidMetricType]
    exactly on the inputs other than the four metric literals (and no
    error on those four); [ValueType.UnmarshalJSON] returns
    [ErrInvalidValueType] exactly on the inputs other than the three
    value literals; the two errors are distinct; and [MarshalJSON] on
    an integer outside the enumeration returns no bytes and the
    corresponding error. *)
Theorem enum_errors (data : bytes) (v : Z) :
  (∃ err s', MetricType_.UnmarshalJSON (addr l) data s = Ok (err, s') ∧
     (err = Some ErrInvalidMetricType ↔ data ∉ metric_literals) ∧
     (err = None ↔ data ∈ metric_literals)) ∧
  (∃ err s', ValueType_.UnmarshalJSON (addr l) data s = Ok (err, s') ∧
     (err = Some ErrInvalidValueType ↔ data ∉ value_literals) ∧
     (err = None ↔ data ∈ value_literals)) ∧
  ErrInvalidMetricType ≠ ErrInvalidValueType ∧
  (v ∉ metric_types → MetricType_.MarshalJSON v = (None, Some ErrInvalidMetricType)) ∧
  (v ∉ value_types → ValueType_.MarshalJSON v = (None, Some ErrInvalidValueType)).
Proof.
  split; [|split; [|split; [done|split]]].
  - destruct (decide (data ∈ metric_literals)) as [Hin|Hout].
    + assert (∃ t, (data, t) ∈ zip metric_literals metric_types) as [t Ht].
      { revert Hin. unfold metric_literals, metric_types. simpl.
        rewrite !elem_of_cons, elem_of_nil.
        intros [->|[->|[->|[->|[]]]]]; eexists; rewrite !elem_of_cons; eauto 6. }
      exists None, (set_ints <[l := t]> s).
      split; [by apply MetricType_decode_literal|]. split; [|done].
      split; [done|]. intros Hn. by destruct Hn.
    + exists (Some ErrInvalidMetricType), s. split; [|done].
      revert Hout. unfold metric_literals. rewrite !not_elem_of_cons.
      intros (?&?&?&?&_). unfold MetricType_.UnmarshalJSON.
      by repeat (case_decide; [done|]).
  - destruct (decide (data ∈ value_literals)) as [Hin|Hout].
    + assert (∃ t, (data, t) ∈ zip value_literals value_types) as [t Ht].
      { revert Hin. unfold value_literals, value_types. simpl.
        rewrite !elem_of_cons, elem_of_nil.
        intros [->|[->|[->|[]]]]; eexists; rewrite !elem_of_cons; eauto 6. }
      exists None, (set_ints <[l := t]> s).
      split; [by apply ValueType_decode_literal|]. split; [|done].
      split; [done|]. intros Hn. by destruct Hn.
    + exists (Some ErrInvalidValueType), s. split; [|done].
      revert Hout. unfold value_literals. rewrite !not_elem_of_cons.
      intros (?&?&?&_). unfold ValueType_.UnmarshalJSON.
      by repeat (case_decide; [done|]).
  - unfold metric_types. rewrite !not_elem_of_cons. intros (?&?&?&?&_).
    unfold MetricType_.MarshalJSON. by repeat (case_decide; [done|]).
  - unfold value_types. rewrite !not_elem_of_cons. intros (?&?&?&_).
    unfold ValueType_.MarshalJSON. by repeat (case_decide; [done|]).
Qed.

End enumerations.

(** ** Tag sets *)

(** The operations that guard against a nil receiver return on it, and
    leave the store as it is; [CloneTags] hands out a new, empty map. *)
Lemma nil_receiver (encode : gmap string string → bytes) (key : string) (s : Store) :
  Get nil key s = Ok ((EmptyString, false), s) ∧
  IsEqual nil nil s = Ok (true, s) ∧
  MarshalJSON encode nil s = Ok ((Some "null"%string, None), s) ∧
  ∃ s', CloneTags nil s = Ok (addr (next s), s') ∧ maps s' !! next s = Some ∅.
Proof.
  repeat split. eexists. split; [reflexivity|]. simpl. apply lookup_insert_eq.
Qed.

(** C1 (amended): [IsEqual] between two nil tag sets is true; between a
    nil tag set and any non-nil tag set, on either side and whatever the
    non-nil one contains, it is false. *)
Theorem IsEqual_unset (s : Store) (l : loc) :
  IsEqual nil nil s = Ok (true, s) ∧
  IsEqual nil (addr l) s = Ok (false, s) ∧
  IsEqual (addr l) nil s = Ok (false, s).
Proof. repeat split. Qed.

(** C1 as stated fails: the tag set at address 4 is non-nil and empty,
    and [IsEqual] between it and the nil tag set is false. *)
Lemma IsEqual_unset_vs_empty :
  tagsets tag_store !! 4%nat = Some (mkSampleTags (addr 3%nat) None) ∧
  maps tag_store !! 3%nat = Some ∅ ∧
  IsEqual nil (addr 4%nat) tag_store = Ok (false, tag_store) ∧
  IsEqual (addr 4%nat) nil tag_store = Ok (false, tag_store).
Proof. repeat split. Qed.

(** C3: on a nil receiver [UnmarshalJSON] panics, whatever the input:
    the guard [if st == nil] assigns through the nil pointer. *)
Theorem UnmarshalJSON_nil_panics (scan : bytes → option JSON)
    (other : bytes → ptr → M (ptr * option error)) (data : bytes) (s : Store) :
  UnmarshalJSON scan other nil data s = Panic.
Proof. reflexivity. Qed.

(** C10: when [data] points to a variable holding a non-nil map,
    [IntoSampleTags] returns a new tag set over that very map object,
    whose entries are untouched, so that [Get] finds exactly the pairs
    the map held; and the variable holds nil afterwards. *)
Theorem IntoSampleTags_consumes (s : Store) (c m : loc) (kv : gmap string string) :
  mapvars s !! c = Some (addr m) →
  maps s !! m = Some kv →
  ∃ st s',
    IntoSampleTags (addr c) s = Ok (addr st, s') ∧
    mapvars s' !! c = Some nil ∧
    tagsets s' !! st = Some (mkSampleTags (addr m) None) ∧
    maps s' !! m = Some kv ∧
    ∀ key, Get (addr st) key s' =
           Ok (match kv !! key with
               | Some v => (v, true)
               | None => (EmptyString, false)
               end, s').
Proof.
  intros Hc Hm. unfold IntoSampleTags. run. rewrite Hc. simpl. rewrite Hc.
  eexists _, _. split; [reflexivity|]. simpl.
  rewrite !lookup_insert_eq. repeat split; [done|].
  intros key. unfold Get, map_lookup. run. rewrite lookup_insert_eq. simpl. rewrite Hm.
  reflexivity.
Qed.

Lemma IntoSampleTags_consumes_witness :
  ∃ s', IntoSampleTags (addr 5%nat) tag_store = Ok (addr 6%nat, s') ∧
        mapvars s' !! 5%nat = Some nil ∧
        Get (addr 6%nat) "a" s' = Ok (("1"%string, true), s').
Proof.
  destruct (IntoSampleTags_consumes tag_store 5%nat 1%nat {["a"%string := "1"%string]}
              eq_refl eq_refl) as (st & s' & Hrun & Hvar & _ & _ & Hget).
  exists s'. inversion Hrun; subst. split; [reflexivity|]. split; [done|].
  apply (Hget "a"%string).
Defined.

(** ** Decoding into a populated tag set *)

Lemma store_members_fold (m : loc) (members : list (string * string)) :
  ∀ (kv : gmap string string) (s : Store),
    maps s !! m = Some kv →
    ∃ s', store_members (addr m) members s = Ok (tt, s') ∧
          maps s' !! m = Some (foldl (λ acc p, <[p.1 := p.2]> acc) kv members) ∧
          tagsets s' = tagsets s.
Proof.
  induction members as [|[k v] members IH]; intros kv s Hm; simpl.
  - by exists s.
  - unfold map_store. run. rewrite Hm. simpl. rewrite Hm.
    destruct (IH (<[k := v]> kv) (set_maps <[m := <[k := v]> kv]> s))
      as (s' & Hrun & Hmaps & Htags).
    { simpl. apply lookup_insert_eq. }
    exists s'. split; [|done]. exact Hrun.
Qed.

Lemma foldl_insert_union (pairs : list (string * string)) (kv : gmap string string) :
  foldl (λ acc p, <[p.1 := p.2]> acc) kv pairs = decoded_object pairs ∪ kv.
Proof.
  unfold decoded_object. induction pairs as [|p pairs IH] using rev_ind.
  - simpl. by rewrite (left_id_L ∅ (∪)).
  - rewrite foldl_app, reverse_app. simpl. rewrite IH.
    by rewrite insert_union_l.
Qed.

(** C2 (amended): decoding a JSON object of strings into a tag set whose
    map is non-nil adds to what the map holds: afterwards the map holds
    the pairs of the decoded object together with every prior pair whose
    key the object does not mention. *)
Theorem UnmarshalJSON_merges (scan : bytes → option JSON)
    (other : bytes → ptr → M (ptr * option error)) (s : Store) (l m : loc)
    (cached : slice) (kv : gmap string string) (data : bytes)
    (members : list (string * string)) :
  tagsets s !! l = Some (mkSampleTags (addr m) cached) →
  maps s !! m = Some kv →
  scan data = Some (JSON_object members) →
  ∃ s', UnmarshalJSON scan other (addr l) data s = Ok (None, s') ∧
        tagsets s' !! l = Some (mkSampleTags (addr m) cached) ∧
        maps s' !! m = Some (decoded_object members ∪ kv) ∧
        ∀ key, key ∉ members.*1 → (decoded_object members ∪ kv) !! key = kv !! key.
Proof.
  intros Hl Hm Hscan.
  destruct (store_members_fold m members kv s Hm) as (s' & Hrun & Hmaps & Htags).
  exists (set_tagsets <[l := mkSampleTags (addr m) cached]> s').
  unfold UnmarshalJSON, json_Unmarshal. rewrite Hscan.
  revert Hrun. run. rewrite Hl. simpl. intros ->. simpl.
  rewrite Htags, Hl. simpl. rewrite lookup_insert_eq.
  rewrite <- foldl_insert_union. repeat split; [done|].
  intros key Hkey. rewrite foldl_insert_union. apply lookup_union_r.
  apply not_elem_of_list_to_map_1. by rewrite fmap_reverse, elem_of_reverse.
Qed.

Lemma UnmarshalJSON_merges_witness :
  ∃ s', UnmarshalJSON scan_flat unmarshal_other (addr 2%nat) doc_b tag_store = Ok (None, s') ∧
        maps s' !! 1%nat = Some ({["b"%string := "2"%string]} ∪ {["a"%string := "1"%string]}).
Proof.
  destruct (UnmarshalJSON_merges scan_flat unmarshal_other tag_store 2%nat 1%nat None
              {["a"%string := "1"%string]} doc_b [("b"%string, "2"%string)]
              eq_refl eq_refl eq_refl) as (s' & Hrun & _ & Hmaps & _).
  exists s'. split; [exact Hrun|exact Hmaps].
Defined.

(** C2 as stated fails: the tag set at address 2 holds the key [a];
    after decoding the object with the single member [b] into it, the
    tag set still holds [a], which the object does not contain. *)
Lemma UnmarshalJSON_keeps_prior_keys :
  scan_flat doc_b = Some (JSON_object [("b"%string, "2"%string)]) ∧
  Get (addr 2%nat) "a" tag_store = Ok (("1"%string, true), tag_store) ∧
  ∃ s', UnmarshalJSON scan_flat unmarshal_other (addr 2%nat) doc_b tag_store = Ok (None, s') ∧
        Get (addr 2%nat) "a" s' = Ok (("1"%string, true), s') ∧
        Get (addr 2%nat) "b" s' = Ok (("2"%string, true), s').
Proof.
  split; [reflexivity|]. split; [reflexivity|].
  eexists. split; [vm_compute; reflexivity|]. split; reflexivity.
Qed.

(** ** Metrics *)

(** C8: [New] returns nil exactly when [typ] is none of Counter, Gauge,
    Trend, Rate; otherwise it returns a new metric with the given name
    and type, whose sink is the one for the type, and whose value type
    is Default when no value type is passed (the first one passed
    otherwise). *)
Theorem New_spec (name : string) (typ : MetricType) (t : list ValueType) (s : Store) :
  ∃ p s', New name typ t s = Ok (p, s') ∧
    (p = nil ↔ typ ∉ metric_types) ∧
    ∀ l, p = addr l →
      ∃ m, metrics s' !! l = Some m ∧
           Metric_Name m = name ∧ Metric_Type m = typ ∧
           (typ = Counter → Metric_Sink m = CounterSink) ∧
           (typ = Gauge → Metric_Sink m = GaugeSink) ∧
           (typ = Trend → Metric_Sink m = TrendSink) ∧
           (typ = Rate → Metric_Sink m = RateSink) ∧
           (t = [] → Metric_Contains m = Default) ∧
           (∀ t0 ts, t = t0 :: ts → Metric_Contains m = t0).
Proof.
  unfold New, metric_types.
  repeat case_decide; subst;
    try (eexists _, _; split; [reflexivity|]; split;
         [ split; [discriminate | rewrite !not_elem_of_cons; tauto]
         | intros l [= <-]; eexists; split; [simpl; apply lookup_insert_eq|];
           simpl; repeat split; try discriminate; try done;
           try (by intros ->); by intros ?? -> ]).
  exists nil, s. split; [reflexivity|]. split; [|discriminate].
  split; [|done]. intros _. rewrite !not_elem_of_cons, elem_of_nil. tauto.
Qed.

(** ** Splitting and trimming *)

Lemma app_cons (a : ascii) (x y : string) : String a x +:+ y = String a (x +:+ y).
Proof. reflexivity. Qed.

Lemma app_empty (y : string) : EmptyString +:+ y = y.
Proof. reflexivity. Qed.

Lemma take_drop_bytes (n : nat) (s : string) : take_bytes n s +:+ drop_bytes n s = s.
Proof.
  revert s. induction n as [|n IH]; intros [|a r]; simpl; try done.
  rewrite app_cons. f_equal. apply IH.
Qed.

Lemma take_bytes_app (x y : string) : take_bytes (String.length x) (x +:+ y) = x.
Proof.
  induction x as [|a x IH]; [done|].
  rewrite app_cons. simpl. by f_equal.
Qed.

Lemma drop_bytes_app (x y : string) : drop_bytes (String.length x) (x +:+ y) = y.
Proof. induction x as [|a x IH]; [done|]. rewrite app_cons. simpl. done. Qed.

Lemma length_app_byte (x : string) (c : ascii) :
  String.length (x +:+ String c EmptyString) = S (String.length x).
Proof. induction x as [|a x IH]; [done|]. rewrite app_cons. simpl. by f_equal. Qed.

Lemma TrimSuffix_app (x : string) (c : ascii) :
  strings.TrimSuffix (x +:+ String c EmptyString) (String c EmptyString) = x.
Proof.
  unfold strings.TrimSuffix, strings.HasSuffix, len.
  rewrite length_app_byte. simpl String.length.
  replace (S (String.length x) - 1)%nat with (String.length x) by lia.
  rewrite drop_bytes_app, take_bytes_app.
  rewrite bool_decide_eq_true_2 by lia.
  by rewrite bool_decide_eq_true_2.
Qed.

Lemma TrimSuffix_other (s : string) (c : ascii) :
  (∀ x, s ≠ x +:+ String c EmptyString) →
  strings.TrimSuffix s (String c EmptyString) = s.
Proof.
  intros Hs. unfold strings.TrimSuffix, strings.HasSuffix.
  destruct (bool_decide (len s >= _)); simpl; [|done].
  case_bool_decide as Hd; [|done].
  destruct (Hs (take_bytes (String.length s - String.length (String c EmptyString)) s)).
  rewrite <- Hd at 2. by rewrite take_drop_bytes.
Qed.

Section one_byte_separator.

Variable c : ascii.

(** The separator made of the byte [c]. *)
Local Abbreviation sep := (String c EmptyString).

Lemma Index_cons_eq (r : string) : strings.Index (String c r) sep = Some O.
Proof. simpl. by rewrite decide_True. Qed.

Lemma Index_cons_ne (a : ascii) (r : string) :
  a ≠ c → strings.Index (String a r) sep = S <$> strings.Index r sep.
Proof. intros Hne. simpl. by rewrite decide_False. Qed.

Lemma Index_empty : strings.Index EmptyString sep = None.
Proof. reflexivity. Qed.

Lemma genSplit_loop_empty (n : nat) :
  strings.genSplit_loop n EmptyString sep 0 = [EmptyString].
Proof. by destruct n. Qed.

Lemma genSplit_loop_cons_eq (n : nat) (r : string) :
  strings.genSplit_loop (S n) (String c r) sep 0
  = EmptyString :: strings.genSplit_loop n r sep 0.
Proof.
  cbn [strings.genSplit_loop]. rewrite Index_cons_eq. reflexivity.
Qed.

Lemma genSplit_loop_cons_ne (n : nat) (a : ascii) (r : string) :
  a ≠ c →
  strings.genSplit_loop n (String a r) sep 0
  = extend_first a (strings.genSplit_loop n r sep 0).
Proof.
  intros Hne. destruct n as [|n]; [done|].
  cbn [strings.genSplit_loop]. rewrite Index_cons_ne by done.
  destruct (strings.Index r sep) as [m|]; reflexivity.
Qed.

Lemma genSplit_loop_pieces (s : string) :
  ∀ n, (count_byte c s ≤ n)%nat → strings.genSplit_loop n s sep 0 = pieces c s.
Proof.
  induction s as [|a r IH]; intros n Hn.
  - apply genSplit_loop_empty.
  - simpl in *. case_decide as Ha.
    + subst a. destruct n as [|n]; [lia|].
      rewrite genSplit_loop_cons_eq, IH by lia. done.
    + rewrite genSplit_loop_cons_ne, IH by done. done.
Qed.

Lemma genSplit_loop_cut (s : string) :
  strings.genSplit_loop 1 s sep 0
  = match cut c s with
    | (k, Some v) => [k; v]
    | (k, None) => [k]
    end.
Proof.
  induction s as [|a r IH]; [done|].
  simpl cut. case_decide as Ha.
  - subst a. by rewrite genSplit_loop_cons_eq.
  - rewrite genSplit_loop_cons_ne, IH by done.
    by destruct (cut c r) as [k [v|]].
Qed.

Lemma Count_loop_empty (n : nat) : strings.Count_loop n EmptyString sep = O.
Proof. by destruct n. Qed.

Lemma Count_loop_cons_eq (n : nat) (r : string) :
  strings.Count_loop (S n) (String c r) sep = S (strings.Count_loop n r sep).
Proof. cbn [strings.Count_loop]. rewrite Index_cons_eq. reflexivity. Qed.

Lemma Count_loop_cons_ne (n : nat) (a : ascii) (r : string) :
  a ≠ c →
  strings.Count_loop (S n) (String a r) sep = strings.Count_loop (S n) r sep.
Proof.
  intros Hne. cbn [strings.Count_loop]. rewrite Index_cons_ne by done.
  destruct (strings.Index r sep) as [m|]; reflexivity.
Qed.

Lemma Count_loop_count (s : string) :
  ∀ n, (String.length s ≤ n)%nat → strings.Count_loop n s sep = count_byte c s.
Proof.
  induction s as [|a r IH]; intros n Hn.
  - apply Count_loop_empty.
  - simpl in *. destruct n as [|n]; [lia|]. case_decide as Ha.
    + subst a. rewrite Count_loop_cons_eq, IH by lia. done.
    + rewrite Count_loop_cons_ne, IH by (done || lia). done.
Qed.

Lemma count_byte_length (s : string) : (count_byte c s ≤ String.length s)%nat.
Proof. induction s as [|a r IH]; simpl; [done|]. case_decide; lia. Qed.

(** [strings.Split] at a byte gives the pieces between its occurrences. *)
Lemma Split_pieces (s : string) : strings.Split s sep = pieces c s.
Proof.
  unfold strings.Split, strings.genSplit, strings.Count, len.
  rewrite Count_loop_count by done.
  pose proof (count_byte_length s).
  rewrite decide_False by done. rewrite decide_False by done.
  destruct (decide (-1 < 0)); [|lia].
  rewrite decide_False by lia.
  apply genSplit_loop_pieces. lia.
Qed.

(** [strings.SplitN] with [n = 2] cuts at the first occurrence. *)
Lemma SplitN_cut (s : string) :
  strings.SplitN s sep 2
  = match cut c s with
    | (k, Some v) => [k; v]
    | (k, None) => [k]
    end.
Proof.
  unfold strings.SplitN, strings.genSplit.
  rewrite decide_False by done. rewrite decide_False by done.
  destruct (decide (2 < 0)); [lia|].
  destruct s as [|a r]; [reflexivity|].
  rewrite decide_False by (unfold len; simpl String.length; lia).
  apply genSplit_loop_cut.
Qed.

Lemma cut_absent (s : string) :
  strings.contains_byte s c = false → cut c s = (s, None).
Proof.
  induction s as [|a r IH]; simpl; [done|].
  case_decide; [done|]. intros Hr. by rewrite (IH Hr).
Qed.

Lemma cut_first (x y : string) :
  strings.contains_byte x c = false → cut c (x +:+ String c y) = (x, Some y).
Proof.
  induction x as [|a r IH]; rewrite ?app_cons, ?app_empty; simpl.
  - by rewrite decide_True.
  - case_decide; [done|]. intros Hr. by rewrite (IH Hr).
Qed.

Lemma contains_byte_take (n : nat) (s : string) :
  strings.contains_byte s c = false →
  strings.contains_byte (take_bytes n s) c = false.
Proof.
  revert s. induction n as [|n IH]; intros [|a r]; simpl; try done.
  case_decide; [done|]. apply IH.
Qed.

Lemma pieces_absent (s : string) :
  strings.contains_byte s c = false → pieces c s = [s].
Proof.
  induction s as [|a r IH]; simpl; [done|].
  case_decide; [done|]. intros Hr. by rewrite (IH Hr).
Qed.

Lemma pieces_app (x y : string) :
  pieces c (x +:+ String c y) = pieces c x ++ pieces c y.
Proof.
  induction x as [|a r IH]; rewrite ?app_cons, ?app_empty; simpl.
  - by rewrite decide_True.
  - case_decide; rewrite IH; [done|].
    by destruct r; simpl; [|case_decide; [|destruct (pieces c r)]].
Qed.

End one_byte_separator.

Lemma app_assoc_bytes (x y z : string) : (x +:+ y) +:+ z = x +:+ (y +:+ z).
Proof. induction x as [|a x IH]; [done|]. rewrite !app_cons. by f_equal. Qed.

(** Trimming a string made of ASCII white space leaves nothing. *)
Lemma space1_not_quote (a : ascii) :
  strings.space1 a = true → strings.contains_byte quotes a = false.
Proof. destruct a as [[] [] [] [] [] [] [] []]; done. Qed.

Lemma space1_not_colon (a : ascii) : strings.space1 a = true → a ≠ ":"%char.
Proof. destruct a as [[] [] [] [] [] [] [] []]; done. Qed.

Lemma TrimLeftFunc_keeps (f : ascii → bool) (a : ascii) (r : string) :
  f a = false → strings.TrimLeftFunc (String a r) f = String a r.
Proof. intros Hf. simpl. by rewrite Hf. Qed.

Lemma TrimRightFunc_spaces (s : string) :
  all_bytes strings.space1 s = true →
  strings.TrimRightFunc s (strings.contains_byte quotes) = s.
Proof.
  induction s as [|a r IH]; [done|].
  cbn [strings.TrimRightFunc all_bytes]. intros [Ha Hr]%andb_prop. rewrite (IH Hr).
  destruct r; [|done]. by rewrite space1_not_quote.
Qed.

Lemma TrimLeftSpace_spaces (s : string) :
  all_bytes strings.space1 s = true → strings.TrimLeftSpace s = EmptyString.
Proof.
  unfold strings.TrimLeftSpace.
  induction s as [|a r IH]; [done|].
  simpl. intros [Ha Hr]%andb_prop. rewrite Ha. by apply IH.
Qed.

Lemma trimmed_spaces (s : string) :
  all_bytes strings.space1 s = true → trimmed s = EmptyString.
Proof.
  intros Hs. unfold trimmed, strings.Trim, strings.TrimSpace.
  destruct s as [|a r]; [reflexivity|].
  rewrite decide_False by done. rewrite decide_False by done.
  pose proof Hs as [Ha Hr]%andb_prop.
  rewrite TrimLeftFunc_keeps by by apply space1_not_quote.
  rewrite TrimRightFunc_spaces by done.
  by rewrite TrimLeftSpace_spaces.
Qed.

Lemma spaces_no_colon (s : string) :
  all_bytes strings.space1 s = true → strings.contains_byte s ":" = false.
Proof.
  induction s as [|a r IH]; [done|].
  simpl. intros [Ha Hr]%andb_prop.
  rewrite decide_False by by apply space1_not_colon. by apply IH.
Qed.

(** ** Submetrics *)

(** The reading of a clause. *)
Lemma clause_tag_colon (k v : string) :
  strings.contains_byte k ":" = false →
  clause_tag (k +:+ ":" +:+ v) = (trimmed k, trimmed v).
Proof.
  intros Hk. unfold clause_tag.
  change (":" +:+ v)%string with (String ":" v). by rewrite cut_first.
Qed.

Lemma clause_tag_no_colon (k : string) :
  strings.contains_byte k ":" = false → clause_tag k = (trimmed k, EmptyString).
Proof. intros Hk. unfold clause_tag. by rewrite cut_absent. Qed.

Lemma clause_tag_spaces (clause : string) :
  all_bytes strings.space1 clause = true →
  clause_tag clause = (EmptyString, EmptyString).
Proof.
  intros Hs. rewrite clause_tag_no_colon by by apply spaces_no_colon.
  by rewrite trimmed_spaces.
Qed.

(** Of several pairs with the same key the last one counts. *)
Lemma last_pair_counts (before after : list (string * string)) (k v : string) :
  k ∉ after.*1 →
  (list_to_map (reverse (before ++ (k, v) :: after)) : gmap string string) !! k = Some v.
Proof.
  intros Hk. rewrite reverse_app, reverse_cons, <- app_assoc. simpl.
  rewrite list_to_map_app. apply lookup_union_Some_raw. right. split.
  - apply not_elem_of_list_to_map_1. by rewrite fmap_reverse, elem_of_reverse.
  - simpl. apply lookup_insert_eq.
Qed.

Lemma set_maps_same (m : loc) (X : gmap string string) (s : Store) :
  maps s !! m = Some X → set_maps <[m := X]> s = s.
Proof. intros Hm. destruct s. unfold set_maps. simpl in *. f_equal. by apply insert_id. Qed.

Lemma set_maps_twice (m : loc) (X Y : gmap string string) (s : Store) :
  set_maps <[m := Y]> (set_maps <[m := X]> s) = set_maps <[m := Y]> s.
Proof. unfold set_maps. simpl. f_equal. apply insert_insert_eq. Qed.

Lemma NewSubmetric_clause_step (m : loc) (X : gmap string string) (kv : string) (s : Store) :
  maps s !! m = Some X →
  NewSubmetric_clause (addr m) kv s = Ok (tt, set_maps <[m := clause_step X kv]> s).
Proof.
  intros Hm. unfold NewSubmetric_clause, clause_step, clause_tag.
  case_decide as Hkv.
  - by rewrite set_maps_same.
  - rewrite SplitN_cut. destruct (cut ":" kv) as [k [v|]]; simpl;
      unfold map_store; run; rewrite Hm; simpl; by rewrite Hm.
Qed.

Lemma NewSubmetric_loop_fold (m : loc) (kvs : list string) :
  ∀ (X : gmap string string) (s : Store),
    maps s !! m = Some X →
    NewSubmetric_loop (addr m) kvs s = Ok (tt, set_maps <[m := foldl clause_step X kvs]> s).
Proof.
  induction kvs as [|kv kvs IH]; intros X s Hm; simpl.
  - by rewrite set_maps_same.
  - rewrite (bind_Ok _ _ _ _ _ (NewSubmetric_clause_step m X kv s Hm)).
    rewrite (IH (clause_step X kv)) by (simpl; apply lookup_insert_eq).
    by rewrite set_maps_twice.
Qed.

Lemma foldl_clause_step (l : list string) (X : gmap string string) :
  foldl clause_step X l
  = list_to_map (reverse (clause_tag <$> filter (λ clause, clause ≠ EmptyString) l)) ∪ X.
Proof.
  induction l as [|clause l IH] using rev_ind.
  - simpl. by rewrite (left_id_L ∅ (∪)).
  - rewrite foldl_app, filter_app, fmap_app, reverse_app. simpl.
    rewrite IH. unfold clause_step at 1. rewrite filter_cons, filter_nil.
    case_decide as Hc.
    + rewrite decide_False by by intros ?. done.
    + rewrite decide_True by done. simpl. by rewrite insert_union_l.
Qed.

(** The parses listed among the testable properties, and the edge cases
    of the filter syntax. *)
Example filter_tags_two : filter_tags "status:200,method:GET"
  = {[ "status"%string := "200"%string; "method"%string := "GET"%string ]}.
Proof. reflexivity. Qed.

Example filter_tags_bad : filter_tags "bad" = {[ "bad"%string := EmptyString ]}.
Proof. reflexivity. Qed.

Example filter_tags_duplicate : filter_tags "a:1,b:2,a:3"
  = {[ "a"%string := "3"%string; "b"%string := "2"%string ]}.
Proof. reflexivity. Qed.

Example filter_tags_commas : filter_tags ",a:1,,"  = {[ "a"%string := "1"%string ]}.
Proof. reflexivity. Qed.

Example filter_tags_blank : filter_tags " " = {[ EmptyString := EmptyString ]}.
Proof. reflexivity. Qed.

(** Quoting characters are trimmed before white space is: quotes inside
    white space go away with it, quotes around white space stay. *)
Example trimmed_quotes_inside : trimmed "' a '" = "a"%string.
Proof. reflexivity. Qed.

Example trimmed_quotes_outside : trimmed " 'a' " = "'a'"%string.
Proof. reflexivity. Qed.

(** C5 (amended): for an input without an opening brace, [NewSubmetric]
    returns as parent name the input with one closing brace removed from
    its end, hence the input itself unless it ends with a closing brace;
    the submetric has the input as its name, no tags, and its parent and
    suffix are left empty. *)
Theorem NewSubmetric_no_filter (name : string) (s : Store) :
  strings.contains_byte name "{" = false →
  ∃ parent sm s',
    NewSubmetric name s = Ok ((parent, addr sm), s') ∧
    parent = strings.TrimSuffix name "}" ∧
    (∀ base, name = base +:+ "}" → parent = base) ∧
    ((∀ base, name ≠ base +:+ "}") → parent = name) ∧
    submetrics s' !! sm = Some (mkSubmetric name EmptyString EmptyString nil nil).
Proof.
  intros Hname.
  assert (strings.SplitN (strings.TrimSuffix name "}") "{" 2
          = [strings.TrimSuffix name "}"]) as Hparts.
  { rewrite SplitN_cut, cut_absent; [done|].
    unfold strings.TrimSuffix. destruct (strings.HasSuffix name "}"); [|done].
    by apply contains_byte_take. }
  unfold NewSubmetric. rewrite Hparts. rewrite decide_True by done.
  eexists _, _, _. split; [reflexivity|]. split; [done|]. split; [|split].
  - intros base ->. apply TrimSuffix_app.
  - apply TrimSuffix_other.
  - simpl. apply lookup_insert_eq.
Qed.

Lemma NewSubmetric_no_filter_witness :
  ∃ sm s', NewSubmetric "errors" empty_store = Ok (("errors"%string, addr sm), s') ∧
           submetrics s' !! sm = Some (mkSubmetric "errors" EmptyString EmptyString nil nil).
Proof.
  destruct (NewSubmetric_no_filter "errors" empty_store eq_refl)
    as (parent & sm & s' & Hrun & Hparent & _ & _ & Hsm).
  exists sm, s'. split; [|exact Hsm]. rewrite Hrun, Hparent. reflexivity.
Defined.

(** C5 as stated fails: for the input [errors}] the parent name returned
    is [errors], not the input; and the [Parent] field of the submetric
    is empty, for this input as for the input [errors]. *)
Lemma NewSubmetric_parent_not_input :
  (∃ s', NewSubmetric "errors}" empty_store = Ok (("errors"%string, addr 1%nat), s') ∧
         Submetric_Parent <$> submetrics s' !! 1%nat = Some EmptyString) ∧
  (∃ s', NewSubmetric "errors" empty_store = Ok (("errors"%string, addr 1%nat), s') ∧
         Submetric_Parent <$> submetrics s' !! 1%nat = Some EmptyString).
Proof. split; eexists; split; reflexivity. Qed.

(** ** The theorems at work on the example stores *)

Lemma enum_roundtrip_witness :
  ∃ s', MetricType_.UnmarshalJSON (addr 1%nat) rateString int_store = Ok (None, s') ∧
        ints s' !! 1%nat = Some Rate.
Proof.
  destruct (enum_roundtrip int_store 1%nat 7 eq_refl) as [Hmetric _].
  destruct (Hmetric Rate) as (b & s' & Hb & Hrun & Hv).
  { unfold metric_types. rewrite !elem_of_cons. tauto. }
  inversion Hb; subst b. by exists s'.
Defined.

Lemma enum_errors_witness :
  ∃ err s', MetricType_.UnmarshalJSON (addr 1%nat) "counter" int_store = Ok (err, s') ∧
            err = Some ErrInvalidMetricType.
Proof.
  destruct (enum_errors int_store 1%nat 7 eq_refl "counter" 4)
    as [(err & s' & Hrun & [_ Hbad] & _) _].
  exists err, s'. split; [done|]. apply Hbad.
  unfold metric_literals. rewrite !not_elem_of_cons, elem_of_nil.
  repeat split; discriminate || tauto.
Defined.

(** * Further properties *)

(** ** Type enumerations *)

(** X1: on a declared value [String] returns the bytes that
    [MarshalJSON] produces; on any other integer it returns the text
    [[INVALID]], where [MarshalJSON] returns an error. *)
Theorem String_agrees (t : Z) :
  (t ∈ metric_types →
     MetricType_.MarshalJSON t = (Some (MetricType_.String t), None)) ∧
  (t ∉ metric_types → MetricType_.String t = "[INVALID]"%string) ∧
  (t ∈ value_types →
     ValueType_.MarshalJSON t = (Some (ValueType_.String t), None)) ∧
  (t ∉ value_types → ValueType_.String t = "[INVALID]"%string).
Proof.
  unfold metric_types, value_types. repeat split.
  - rewrite !elem_of_cons, elem_of_nil. by intros [->|[->|[->|[->|[]]]]].
  - rewrite !not_elem_of_cons. intros (?&?&?&?&_).
    unfold MetricType_.String. by repeat (case_decide; [done|]).
  - rewrite !elem_of_cons, elem_of_nil. by intros [->|[->|[->|[]]]].
  - rewrite !not_elem_of_cons. intros (?&?&?&_).
    unfold ValueType_.String. by repeat (case_decide; [done|]).
Qed.

Lemma assign_inv {A} (heap : Store → gmap loc A) set p (a : A) s s' :
  assign heap set p a s = Ok (tt, s') →
  ∃ l, p = addr l ∧ s' = set <[l := a]> s.
Proof.
  unfold assign, deref, modify, panic, mbind, M_bind.
  destruct p as [|l]; [done|]. destruct (heap s !! l); [|done].
  intros [= <-]. by exists l.
Qed.

Lemma assign_then {A B} (heap : Store → gmap loc A) set p (a : A) (b : B) s r s' :
  (assign heap set p a;; mret b) s = Ok (r, s') →
  r = b ∧ ∃ l, p = addr l ∧ s' = set <[l := a]> s.
Proof.
  unfold mbind, M_bind, mret, M_ret.
  destruct (assign heap set p a s) as [[[] s0]|] eqn:Hrun; [|done].
  intros [= <- <-]. split; [done|]. by eapply assign_inv.
Qed.

(** X2: when a decoder returns no error, the receiver is a non-nil
    pointer, and the value it now points to encodes to the very bytes
    that were decoded. *)
Theorem enum_decode_encode (p : ptr) (data : bytes) (s s' : Store) :
  (MetricType_.UnmarshalJSON p data s = Ok (None, s') →
     ∃ l v, p = addr l ∧ ints s' !! l = Some v ∧
            MetricType_.MarshalJSON v = (Some data, None)) ∧
  (ValueType_.UnmarshalJSON p data s = Ok (None, s') →
     ∃ l v, p = addr l ∧ ints s' !! l = Some v ∧
            ValueType_.MarshalJSON v = (Some data, None)).
Proof.
  split.
  - unfold MetricType_.UnmarshalJSON.
    repeat case_decide; subst; try done;
      intros [_ (l & -> & ->)]%assign_then;
      eexists l, _; (split; [done|]); (split; [simpl; apply lookup_insert_eq|done]).
  - unfold ValueType_.UnmarshalJSON.
    repeat case_decide; subst; try done;
      intros [_ (l & -> & ->)]%assign_then;
      eexists l, _; (split; [done|]); (split; [simpl; apply lookup_insert_eq|done]).
Qed.

(** X3: on bytes that are not one of its literals a decoder returns its
    error and leaves the store as it is, whatever the receiver, nil
    included; on a literal it assigns through the receiver, so a nil
    receiver panics. *)
Theorem enum_decode_failure (p : ptr) (data : bytes) (s : Store) :
  (data ∉ metric_literals →
     MetricType_.UnmarshalJSON p data s = Ok (Some ErrInvalidMetricType, s)) ∧
  (data ∈ metric_literals → MetricType_.UnmarshalJSON nil data s = Panic) ∧
  (data ∉ value_literals →
     ValueType_.UnmarshalJSON p data s = Ok (Some ErrInvalidValueType, s)) ∧
  (data ∈ value_literals → ValueType_.UnmarshalJSON nil data s = Panic).
Proof.
  unfold metric_literals, value_literals. repeat split.
  - rewrite !not_elem_of_cons. intros (?&?&?&?&_).
    unfold MetricType_.UnmarshalJSON. by repeat (case_decide; [done|]).
  - rewrite !elem_of_cons, elem_of_nil. by intros [->|[->|[->|[->|[]]]]].
  - rewrite !not_elem_of_cons. intros (?&?&?&_).
    unfold ValueType_.UnmarshalJSON. by repeat (case_decide; [done|]).
  - rewrite !elem_of_cons, elem_of_nil. by intros [->|[->|[->|[]]]].
Qed.

(** ** Tag sets *)

Lemma map_len_contents (s : Store) (m : ptr) (kv : gmap string string) :
  map_contents s m = Some kv → map_len m s = Ok (Z.of_nat (size kv), s).
Proof.
  destruct m as [|l]; simpl.
  - intros [= <-]. by rewrite map_size_empty.
  - intros Hm. unfold map_len. run. by rewrite Hm.
Qed.

Lemma map_range_contents (s : Store) (m : ptr) (kv : gmap string string) :
  map_contents s m = Some kv → map_range m s = Ok (map_to_list kv, s).
Proof.
  destruct m as [|l]; simpl.
  - intros [= <-]. by rewrite map_to_list_empty.
  - intros Hm. unfold map_range. run. by rewrite Hm.
Qed.

Lemma map_lookup_contents (s : Store) (m : ptr) (kv : gmap string string) (k : string) :
  map_contents s m = Some kv → map_lookup m k s = Ok (lookup_result kv k, s).
Proof.
  destruct m as [|l]; simpl.
  - by intros [= <-].
  - intros Hm. unfold map_lookup. run. by rewrite Hm.
Qed.

Lemma IsEqual_loop_run (s : Store) (other : ptr) (mb : gmap string string)
    (entries : list (string * string)) :
  map_contents s other = Some mb →
  IsEqual_loop other entries s
  = Ok (forallb (λ p, bool_decide (mb !! p.1 = Some p.2)) entries, s).
Proof.
  intros Hm. induction entries as [|[k v] entries IH]; [done|].
  cbn [IsEqual_loop forallb fst snd].
  rewrite (bind_Ok _ _ _ _ _ (map_lookup_contents s other mb k Hm)).
  unfold lookup_result. destruct (mb !! k) as [v'|]; simpl.
  - case_bool_decide as Hv; simpl.
    + subst v'. rewrite bool_decide_eq_true_2 by done. exact IH.
    + rewrite bool_decide_eq_false_2 by congruence. reflexivity.
  - reflexivity.
Qed.

Lemma forallb_entries (ma mb : gmap string string) :
  size ma = size mb →
  forallb (λ p, bool_decide (mb !! p.1 = Some p.2)) (map_to_list ma)
  = bool_decide (ma = mb).
Proof.
  intros Hsize. apply eq_true_iff_eq.
  rewrite forallb_forall, bool_decide_eq_true. split.
  - intros Hall. apply map_subseteq_size_eq; [|lia].
    apply map_subseteq_spec. intros k v Hk.
    eapply bool_decide_eq_true_1.
    apply (Hall (k, v)), list_elem_of_In. by apply elem_of_map_to_list.
  - intros <- [k v] Hin%list_elem_of_In. apply bool_decide_eq_true_2.
    by apply elem_of_map_to_list.
Qed.

Lemma IsEqual_run (s : Store) (a b : loc) (ta tb : SampleTags)
    (ma mb : gmap string string) :
  tagsets s !! a = Some ta →
  tagsets s !! b = Some tb →
  map_contents s (tags ta) = Some ma →
  map_contents s (tags tb) = Some mb →
  IsEqual (addr a) (addr b) s = Ok (bool_decide (ma = mb), s).
Proof.
  intros Ha Hb Hma Hmb. unfold IsEqual. case_decide as Hab.
  - injection Hab as ->. rewrite Ha in Hb. injection Hb as ->.
    rewrite Hma in Hmb. injection Hmb as ->.
    by rewrite bool_decide_eq_true_2.
  - rewrite decide_False by done. rewrite decide_False by done.
    run. rewrite Ha, Hb.
    pose proof (map_len_contents s _ _ Hma) as Hla.
    pose proof (map_len_contents s _ _ Hmb) as Hlb.
    pose proof (map_range_contents s _ _ Hma) as Hra.
    pose proof (IsEqual_loop_run s _ mb (map_to_list ma) Hmb) as Hloop.
    rewrite Hla, Hlb. case_decide as Hsize.
    + rewrite bool_decide_eq_false_2; [done|]. by intros ->.
    + rewrite Hra, Hloop. rewrite forallb_entries; [done|]. lia.
Qed.

Lemma IsEqual_loop_any_order (s : Store) (other : ptr) (ma mb : gmap string string)
    (entries : list (string * string)) :
  map_contents s other = Some mb →
  entries ≡ₚ map_to_list ma →
  size ma = size mb →
  IsEqual_loop other entries s = Ok (bool_decide (ma = mb), s).
Proof.
  intros Hmb Hperm Hsize. rewrite (IsEqual_loop_run s other mb entries Hmb).
  do 2 f_equal. rewrite <- (forallb_entries ma mb Hsize).
  apply eq_true_iff_eq. rewrite !forallb_forall. split.
  - intros Hall p Hp%list_elem_of_In. apply Hall, list_elem_of_In. by rewrite Hperm.
  - intros Hall p Hp%list_elem_of_In. apply Hall, list_elem_of_In. by rewrite <- Hperm.
Qed.

(** X4: between two non-nil tag sets [IsEqual] returns whether their
    maps hold the same entries, a nil map counting as empty; it does not
    change the store.  The answer does not depend on the order in which
    the entries of the first map are visited: once the two maps have the
    same number of entries, the loop over the entries of the first map,
    taken in any order, returns whether the maps are equal. *)
Theorem IsEqual_decides (s : Store) (a b : loc) (ta tb : SampleTags)
    (ma mb : gmap string string) :
  tagsets s !! a = Some ta →
  tagsets s !! b = Some tb →
  map_contents s (tags ta) = Some ma →
  map_contents s (tags tb) = Some mb →
  IsEqual (addr a) (addr b) s = Ok (bool_decide (ma = mb), s) ∧
  ∀ entries, entries ≡ₚ map_to_list ma → size ma = size mb →
             IsEqual_loop (tags tb) entries s = Ok (bool_decide (ma = mb), s).
Proof.
  intros Ha Hb Hma Hmb. split; [by eapply IsEqual_run|].
  intros entries Hperm Hsize. by eapply IsEqual_loop_any_order.
Qed.

Lemma IsEqual_decides_witness :
  IsEqual (addr 3%nat) (addr 4%nat) twin_store = Ok (true, twin_store) ∧
  IsEqual_loop (addr 2%nat) [("a"%string, "1"%string); ("b"%string, "2"%string)] twin_store
    = Ok (true, twin_store) ∧
  IsEqual_loop (addr 2%nat) [("b"%string, "2"%string); ("a"%string, "1"%string)] twin_store
    = Ok (true, twin_store).
Proof.
  pose proof (IsEqual_decides twin_store 3%nat 4%nat _ _
                {["a"%string := "1"%string; "b"%string := "2"%string]}
                {["b"%string := "2"%string; "a"%string := "1"%string]}
                eq_refl eq_refl eq_refl eq_refl) as [Hrun Hloop].
  split; [exact Hrun|]. split.
  - apply Hloop; [|reflexivity]. vm_compute. first [reflexivity|apply perm_swap].
  - apply Hloop; [|reflexivity]. vm_compute. first [reflexivity|apply perm_swap].
Defined.

Lemma Get_contents (s : Store) (l : loc) (t : SampleTags) (kv : gmap string string)
    (key : string) :
  tagsets s !! l = Some t →
  map_contents s (tags t) = Some kv →
  Get (addr l) key s = Ok (lookup_result kv key, s).
Proof.
  intros Hl Hm. unfold Get. rewrite decide_False by done.
  run. rewrite Hl. by apply map_lookup_contents.
Qed.

Lemma map_store_run (s : Store) (l : loc) (X : gmap string string) (k v : string) :
  maps s !! l = Some X →
  map_store (addr l) k v s = Ok (tt, set_maps <[l := <[k := v]> X]> s).
Proof. intros Hl. unfold map_store. run. rewrite Hl. simpl. by rewrite Hl. Qed.

Lemma map_store_inv (s s' : Store) (m : ptr) (k v : string) :
  map_store m k v s = Ok (tt, s') →
  ∃ l X, m = addr l ∧ maps s !! l = Some X ∧ s' = set_maps <[l := <[k := v]> X]> s.
Proof.
  destruct m as [|l]; [done|]. destruct (maps s !! l) as [X|] eqn:Hl.
  - rewrite (map_store_run s l X k v Hl). intros [= <-]. by exists l, X.
  - unfold map_store. run. by rewrite Hl.
Qed.

Lemma copy_entries_fold (m : loc) (entries : list (string * string)) :
  ∀ (X : gmap string string) (s : Store),
    maps s !! m = Some X →
    copy_entries (addr m) entries s
    = Ok (tt, set_maps <[m := foldl (λ acc p, <[p.1 := p.2]> acc) X entries]> s).
Proof.
  induction entries as [|[k v] entries IH]; intros X s Hm; simpl.
  - by rewrite set_maps_same.
  - rewrite (bind_Ok _ _ _ _ _ (map_store_run s m X k v Hm)).
    rewrite (IH (<[k := v]> X)) by (simpl; apply lookup_insert_eq).
    by rewrite set_maps_twice.
Qed.

Lemma foldl_map_to_list (kv : gmap string string) :
  foldl (λ acc p, <[p.1 := p.2]> acc) ∅ (map_to_list kv) = kv.
Proof.
  rewrite foldl_insert_union, (right_id_L ∅ (∪)). unfold decoded_object.
  rewrite <- (list_to_map_to_list kv) at 2.
  apply list_to_map_proper.
  - rewrite fmap_reverse, reverse_Permutation. apply NoDup_fst_map_to_list.
  - apply reverse_Permutation.
Qed.

Lemma map_contents_alloc (s : Store) (data : ptr) (kv X : gmap string string) :
  map_contents s data = Some kv →
  unused_from s →
  data ≠ addr (next s) ∧
  map_contents (bump (set_maps <[next s := X]> s)) data = Some kv.
Proof.
  intros Hd Hfresh. destruct data as [|d]; [done|]. simpl in *.
  assert (d ≠ next s) as Hne.
  { intros ->. pose proof (Hfresh (next s) (le_n _)) as [Hn _].
    assert (Some kv = None) as [=]. by etrans; [symmetry; exact Hd|exact Hn]. }
  split; [congruence|]. by rewrite lookup_insert_ne.
Qed.

Lemma unused_from_alloc_map (s : Store) (X : gmap string string) :
  unused_from s → unused_from (bump (set_maps <[next s := X]> s)).
Proof.
  intros Hfresh l Hl. simpl in *. rewrite lookup_insert_ne by lia.
  apply Hfresh. lia.
Qed.

Lemma tag_store_unused : unused_from tag_store.
Proof. intros l Hl. simpl in *. by rewrite !lookup_insert_ne by lia. Qed.

(** What a call of [NewSampleTags] returns and leaves behind. *)
Lemma NewSampleTags_run (s : Store) (data : ptr) (kv : gmap string string) :
  map_contents s data = Some kv →
  unused_from s →
  NewSampleTags data s
  = Ok (addr (S (next s)),
        bump (set_tagsets <[S (next s) := mkSampleTags (addr (next s)) None]>
                (bump (set_maps <[next s := kv]> s)))).
Proof.
  intros Hd Hfresh. unfold NewSampleTags.
  destruct (map_contents_alloc s data kv ∅ Hd Hfresh) as [_ Hd1].
  rewrite (bind_Ok _ _ s (addr (next s)) (bump (set_maps <[next s := ∅]> s)))
    by reflexivity.
  rewrite (bind_Ok _ _ _ _ _ (map_range_contents _ data kv Hd1)).
  rewrite (bind_Ok _ _ _ _ _
             (copy_entries_fold (next s) (map_to_list kv) ∅ _ (lookup_insert_eq _ _ _))).
  rewrite foldl_map_to_list. unfold alloc, set_maps, set_tagsets, bump. simpl.
  by rewrite insert_insert_eq.
Qed.

(** X5: [NewSampleTags] copies.  The new tag set is over a new map
    object that holds the entries of the argument; the argument is
    untouched; and what is stored in the argument afterwards does not
    show in the tag set. *)
Theorem NewSampleTags_copies (s : Store) (data : ptr) (kv : gmap string string) :
  map_contents s data = Some kv →
  unused_from s →
  ∃ st m s',
    NewSampleTags data s = Ok (addr st, s') ∧
    tagsets s' !! st = Some (mkSampleTags (addr m) None) ∧
    data ≠ addr m ∧
    map_contents s' data = Some kv ∧
    (∀ key, Get (addr st) key s' = Ok (lookup_result kv key, s')) ∧
    (∀ k v key s'',
       map_store data k v s' = Ok (tt, s'') →
       Get (addr st) key s'' = Ok (lookup_result kv key, s'')).
Proof.
  intros Hd Hfresh.
  destruct (map_contents_alloc s data kv kv Hd Hfresh) as [Hne Hd1].
  eexists _, _, _. split; [by apply NewSampleTags_run|].
  split; [simpl; apply lookup_insert_eq|]. split; [exact Hne|].
  split; [by destruct data|]. split.
  - intros key. eapply Get_contents; simpl; apply lookup_insert_eq.
  - intros k v key s'' (d & X & -> & _ & ->)%map_store_inv.
    eapply Get_contents; [simpl; apply lookup_insert_eq|]. simpl.
    rewrite lookup_insert_ne by congruence. apply lookup_insert_eq.
Qed.

Lemma NewSampleTags_copies_witness :
  ∃ st s', NewSampleTags (addr 1%nat) tag_store = Ok (addr st, s') ∧
           Get (addr st) "a" s' = Ok (("1"%string, true), s').
Proof.
  destruct (NewSampleTags_copies tag_store (addr 1%nat) {["a"%string := "1"%string]}
              eq_refl tag_store_unused) as (st & m & s' & Hrun & _ & _ & _ & Hget & _).
  exists st, s'. split; [exact Hrun|]. apply (Hget "a"%string).
Defined.

(** X8: two tag sets built by [NewSampleTags] from the same map are
    different objects, and [IsEqual] between them is true. *)
Theorem NewSampleTags_twice_equal (s : Store) (data : ptr) (kv : gmap string string) :
  map_contents s data = Some kv →
  unused_from s →
  ∃ st1 st2 s',
    (st1 ← NewSampleTags data;
     st2 ← NewSampleTags data;
     eq ← IsEqual st1 st2;
     mret (st1, st2, eq)) s = Ok ((st1, st2, true), s') ∧
    st1 ≠ st2.
Proof.
  intros Hd Hfresh.
  pose proof (NewSampleTags_run s data kv Hd Hfresh) as Hrun1.
  set (s1 := bump (set_tagsets <[S (next s) := mkSampleTags (addr (next s)) None]>
                     (bump (set_maps <[next s := kv]> s)))) in *.
  assert (map_contents s1 data = Some kv) as Hd1.
  { by destruct (map_contents_alloc s data kv kv Hd Hfresh) as [_ ?]; destruct data. }
  assert (unused_from s1) as Hfresh1.
  { intros l Hl. simpl in *. rewrite !lookup_insert_ne by lia. apply Hfresh. lia. }
  pose proof (NewSampleTags_run s1 data kv Hd1 Hfresh1) as Hrun2.
  eexists _, _, _. split.
  - rewrite (bind_Ok _ _ _ _ _ Hrun1), (bind_Ok _ _ _ _ _ Hrun2).
    erewrite bind_Ok; [reflexivity|].
    erewrite (IsEqual_run _ _ _ _ _ kv kv).
    + by rewrite bool_decide_eq_true_2.
    + simpl. rewrite lookup_insert_ne by lia. apply lookup_insert_eq.
    + simpl. apply lookup_insert_eq.
    + simpl. rewrite lookup_insert_ne by lia. apply lookup_insert_eq.
    + simpl. apply lookup_insert_eq.
  - simpl. intros [= ?]. lia.
Qed.

Lemma NewSampleTags_twice_equal_witness :
  ∃ st1 st2 s',
    (st1 ← NewSampleTags (addr 1%nat);
     st2 ← NewSampleTags (addr 1%nat);
     eq ← IsEqual st1 st2;
     mret (st1, st2, eq)) tag_store = Ok ((st1, st2, true), s') ∧
    st1 ≠ st2.
Proof.
  exact (NewSampleTags_twice_equal tag_store (addr 1%nat) {["a"%string := "1"%string]}
           eq_refl tag_store_unused).
Defined.

(** What a call of [CloneTags] on a tag set returns and leaves behind. *)
Lemma CloneTags_run (s : Store) (l : loc) (t : SampleTags) (kv : gmap string string) :
  tagsets s !! l = Some t →
  map_contents s (tags t) = Some kv →
  unused_from s →
  CloneTags (addr l) s = Ok (addr (next s), bump (set_maps <[next s := kv]> s)).
Proof.
  intros Hl Hm Hfresh. unfold CloneTags.
  destruct (map_contents_alloc s (tags t) kv ∅ Hm Hfresh) as [_ Hm1].
  rewrite (bind_Ok _ _ s (addr (next s)) (bump (set_maps <[next s := ∅]> s)))
    by reflexivity.
  rewrite decide_True by done.
  erewrite bind_Ok; [reflexivity|].
  erewrite bind_Ok; [|unfold deref; simpl; by rewrite Hl].
  rewrite (bind_Ok _ _ _ _ _ (map_range_contents _ (tags t) kv Hm1)).
  rewrite (copy_entries_fold (next s) (map_to_list kv) ∅ _ (lookup_insert_eq _ _ _)).
  rewrite foldl_map_to_list. unfold set_maps, bump. simpl.
  by rewrite insert_insert_eq.
Qed.

(** X6: [CloneTags] on a tag set returns a new map object that holds the
    entries of the tag set and leaves the tag set as it is; what is
    stored in the clone afterwards does not show in the tag set. *)
Theorem CloneTags_copies (s : Store) (l : loc) (t : SampleTags)
    (kv : gmap string string) :
  tagsets s !! l = Some t →
  map_contents s (tags t) = Some kv →
  unused_from s →
  ∃ m s',
    CloneTags (addr l) s = Ok (addr m, s') ∧
    maps s' !! m = Some kv ∧
    tags t ≠ addr m ∧
    tagsets s' = tagsets s ∧
    ∀ k v, ∃ s'',
      map_store (addr m) k v s' = Ok (tt, s'') ∧
      maps s'' !! m = Some (<[k := v]> kv) ∧
      ∀ key, Get (addr l) key s'' = Ok (lookup_result kv key, s'').
Proof.
  intros Hl Hm Hfresh.
  destruct (map_contents_alloc s (tags t) kv kv Hm Hfresh) as [Hne Hm1].
  eexists _, _. split; [by eapply CloneTags_run|].
  split; [simpl; apply lookup_insert_eq|]. split; [exact Hne|]. split; [done|].
  intros k v. eexists. split.
  { apply map_store_run. simpl. apply lookup_insert_eq. }
  split; [simpl; apply lookup_insert_eq|].
  intros key. eapply Get_contents; [exact Hl|].
  destruct (tags t) as [|d]; [done|]. simpl in *.
  rewrite lookup_insert_ne by congruence. exact Hm1.
Qed.

Lemma CloneTags_copies_witness :
  ∃ m s', CloneTags (addr 2%nat) tag_store = Ok (addr m, s') ∧
          maps s' !! m = Some {["a"%string := "1"%string]} ∧
          addr 1%nat ≠ addr m.
Proof.
  destruct (CloneTags_copies tag_store 2%nat _ {["a"%string := "1"%string]}
              eq_refl eq_refl tag_store_unused) as (m & s' & Hrun & Hm & Hne & _).
  by exists m, s'.
Defined.

(** X7: [IntoSampleTags] does not copy.  What is stored afterwards
    through another reference to the map that was passed shows in the
    tag set. *)
Theorem IntoSampleTags_shares (s : Store) (c m : loc) (kv : gmap string string) :
  mapvars s !! c = Some (addr m) →
  maps s !! m = Some kv →
  ∃ st s',
    IntoSampleTags (addr c) s = Ok (addr st, s') ∧
    ∀ k v, ∃ s'',
      map_store (addr m) k v s' = Ok (tt, s'') ∧
      ∀ key, Get (addr st) key s'' = Ok (lookup_result (<[k := v]> kv) key, s'').
Proof.
  intros Hc Hm. unfold IntoSampleTags. run. rewrite Hc. simpl. rewrite Hc.
  eexists _, _. split; [reflexivity|]. intros k v. eexists. split.
  { by apply map_store_run. }
  intros key. eapply Get_contents; simpl; apply lookup_insert_eq.
Qed.

Lemma IntoSampleTags_shares_witness :
  ∃ st s' s'',
    IntoSampleTags (addr 5%nat) tag_store = Ok (addr st, s') ∧
    map_store (addr 1%nat) "b" "2" s' = Ok (tt, s'') ∧
    Get (addr st) "b" s'' = Ok (("2"%string, true), s'').
Proof.
  destruct (IntoSampleTags_shares tag_store 5%nat 1%nat {["a"%string := "1"%string]}
              eq_refl eq_refl) as (st & s' & Hrun & Hshare).
  destruct (Hshare "b"%string "2"%string) as (s'' & Hstore & Hget).
  exists st, s', s''. split; [exact Hrun|]. split; [exact Hstore|].
  apply (Hget "b"%string).
Defined.

(** ** Serialization of tag sets *)

Lemma set_tagsets_same (l : loc) (t : SampleTags) (s : Store) :
  tagsets s !! l = Some t → set_tagsets <[l := t]> s = s.
Proof.
  intros Hl. destruct s. unfold set_tagsets. simpl in *. f_equal. by apply insert_id.
Qed.

(** X9: the first [MarshalJSON] on a tag set without cached bytes
    encodes the map ([null] for a nil map), stores the bytes in the tag
    set and touches nothing else; a second call returns the same bytes
    and leaves the store as it is. *)
Theorem MarshalJSON_caches (encode : gmap string string → bytes) (s : Store)
    (l : loc) (m : ptr) (kv : gmap string string) :
  tagsets s !! l = Some (mkSampleTags m None) →
  map_contents s m = Some kv →
  ∃ b s',
    MarshalJSON encode (addr l) s = Ok ((Some b, None), s') ∧
    b = (if decide (m = nil) then "null"%string else encode kv) ∧
    s' = set_tagsets <[l := mkSampleTags m (Some b)]> s ∧
    MarshalJSON encode (addr l) s' = Ok ((Some b, None), s').
Proof.
  intros Hl Hm. unfold MarshalJSON, json_Marshal.
  rewrite decide_False by done.
  destruct m as [|d]; simpl in Hm.
  - eexists _, _. split; [run; rewrite Hl; simpl; rewrite Hl; reflexivity|].
    split; [done|]. split; [done|].
    run. by rewrite lookup_insert_eq.
  - eexists _, _. split; [run; rewrite Hl; simpl; rewrite Hm, Hl; reflexivity|].
    split; [done|]. split; [done|].
    run. by rewrite lookup_insert_eq.
Qed.

Lemma MarshalJSON_caches_witness :
  ∃ s', MarshalJSON (λ _, "{}"%string) (addr 4%nat) tag_store
        = Ok ((Some "{}"%string, None), s') ∧
        MarshalJSON (λ _, "{}"%string) (addr 4%nat) s' = Ok ((Some "{}"%string, None), s').
Proof.
  destruct (MarshalJSON_caches (λ _, "{}"%string) tag_store 4%nat (addr 3%nat) ∅
              eq_refl eq_refl) as (b & s' & Hrun & -> & _ & Hagain).
  by exists s'.
Defined.

Lemma store_members_run (m : loc) (members : list (string * string)) :
  ∀ (X : gmap string string) (s : Store),
    maps s !! m = Some X →
    store_members (addr m) members s
    = Ok (tt, set_maps <[m := decoded_object members ∪ X]> s).
Proof.
  intros X s Hm. rewrite <- foldl_insert_union. revert X s Hm.
  induction members as [|[k v] members IH]; intros X s Hm; simpl.
  - by rewrite set_maps_same.
  - rewrite (bind_Ok _ _ _ _ _ (map_store_run s m X k v Hm)).
    rewrite (IH (<[k := v]> X)) by (simpl; apply lookup_insert_eq).
    by rewrite set_maps_twice.
Qed.

(** X10: [UnmarshalJSON] keeps the cached bytes of the tag set.  After
    an object has been decoded into a tag set that holds cached bytes,
    the map has the new pairs, and [MarshalJSON] still returns the bytes
    cached before. *)
Theorem MarshalJSON_stale (scan : bytes → option JSON)
    (other : bytes → ptr → M (ptr * option error))
    (encode : gmap string string → bytes) (s : Store) (l m : loc) (cached : bytes)
    (kv : gmap string string) (data : bytes) (members : list (string * string)) :
  tagsets s !! l = Some (mkSampleTags (addr m) (Some cached)) →
  maps s !! m = Some kv →
  scan data = Some (JSON_object members) →
  ∃ s', UnmarshalJSON scan other (addr l) data s = Ok (None, s') ∧
        maps s' !! m = Some (decoded_object members ∪ kv) ∧
        MarshalJSON encode (addr l) s' = Ok ((Some cached, None), s').
Proof.
  intros Hl Hm Hscan. unfold UnmarshalJSON, json_Unmarshal. rewrite Hscan.
  rewrite decide_False by done.
  eexists. split.
  { erewrite bind_Ok; [|reflexivity].
    erewrite bind_Ok; [|unfold deref; by rewrite Hl].
    cbn [tags json]. rewrite decide_False by done.
    erewrite (bind_Ok (_ ≫= _)).
    2:{ erewrite bind_Ok; [|reflexivity].
        erewrite bind_Ok; [|by apply store_members_run]. reflexivity. }
    cbn beta iota. erewrite bind_Ok; [reflexivity|].
    eapply assign_Ok. simpl. exact Hl. }
  split; [simpl; apply lookup_insert_eq|].
  unfold MarshalJSON. rewrite decide_False by done.
  run. by rewrite lookup_insert_eq.
Qed.

Lemma MarshalJSON_stale_witness :
  ∃ s', UnmarshalJSON scan_flat unmarshal_other (addr 2%nat) doc_b
          (set_tagsets <[2%nat := mkSampleTags (addr 1%nat) (Some "old"%string)]> tag_store)
        = Ok (None, s') ∧
        maps s' !! 1%nat
        = Some (decoded_object [("b"%string, "2"%string)] ∪ {["a"%string := "1"%string]}) ∧
        MarshalJSON (λ _, "new"%string) (addr 2%nat) s' = Ok ((Some "old"%string, None), s').
Proof.
  apply (MarshalJSON_stale scan_flat unmarshal_other (λ _, "new"%string)
           (set_tagsets <[2%nat := mkSampleTags (addr 1%nat) (Some "old"%string)]> tag_store)
           2%nat 1%nat "old" {["a"%string := "1"%string]} doc_b
           [("b"%string, "2"%string)] (lookup_insert_eq _ _ _) eq_refl eq_refl).
Defined.

(** X11: decoding an object into a tag set whose map is nil gives the
    tag set a new map that holds exactly the pairs of the object. *)
Theorem UnmarshalJSON_populates (scan : bytes → option JSON)
    (other : bytes → ptr → M (ptr * option error)) (s : Store) (l : loc)
    (cached : slice) (data : bytes) (members : list (string * string)) :
  tagsets s !! l = Some (mkSampleTags nil cached) →
  scan data = Some (JSON_object members) →
  ∃ m s',
    UnmarshalJSON scan other (addr l) data s = Ok (None, s') ∧
    tagsets s' !! l = Some (mkSampleTags (addr m) cached) ∧
    maps s' !! m = Some (decoded_object members) ∧
    ∀ key, Get (addr l) key s' = Ok (lookup_result (decoded_object members) key, s').
Proof.
  intros Hl Hscan. unfold UnmarshalJSON, json_Unmarshal. rewrite Hscan.
  rewrite decide_False by done.
  eexists (next s), _. split.
  { erewrite bind_Ok; [|reflexivity].
    erewrite bind_Ok; [|unfold deref; by rewrite Hl].
    cbn [tags json]. rewrite decide_True by done.
    erewrite (bind_Ok (_ ≫= _)).
    2:{ erewrite bind_Ok; [|reflexivity].
        erewrite bind_Ok;
          [|apply (store_members_run (next s) members ∅); simpl; apply lookup_insert_eq].
        reflexivity. }
    cbn beta iota. erewrite bind_Ok; [reflexivity|].
    eapply assign_Ok. simpl. exact Hl. }
  assert (∀ X : gmap string string, X ∪ ∅ = X) as Hunion
    by (intros X; apply (right_id_L ∅ (∪))).
  split; [simpl; apply lookup_insert_eq|]. split.
  - simpl. rewrite insert_insert_eq, lookup_insert_eq. by rewrite Hunion.
  - intros key. eapply Get_contents; [simpl; apply lookup_insert_eq|].
    simpl. rewrite insert_insert_eq, lookup_insert_eq. by rewrite Hunion.
Qed.

Lemma UnmarshalJSON_populates_witness :
  ∃ m s',
    UnmarshalJSON scan_flat unmarshal_other (addr 1%nat) doc_b
      (set_tagsets <[1%nat := mkSampleTags nil None]> empty_store) = Ok (None, s') ∧
    maps s' !! m = Some (decoded_object [("b"%string, "2"%string)]).
Proof.
  destruct (UnmarshalJSON_populates scan_flat unmarshal_other
              (set_tagsets <[1%nat := mkSampleTags nil None]> empty_store) 1%nat None doc_b
              [("b"%string, "2"%string)] (lookup_insert_eq _ _ _) eq_refl)
    as (m & s' & Hrun & _ & Hm & _).
  by exists m, s'.
Defined.

(** X12: decoding [null] into a tag set makes its map nil, so that [Get]
    finds nothing any more; the map object it had is left as it was. *)
Theorem UnmarshalJSON_null (scan : bytes → option JSON)
    (other : bytes → ptr → M (ptr * option error)) (s : Store) (l : loc)
    (t : SampleTags) (data : bytes) :
  tagsets s !! l = Some t →
  scan data = Some JSON_null →
  ∃ s',
    UnmarshalJSON scan other (addr l) data s = Ok (None, s') ∧
    tagsets s' !! l = Some (mkSampleTags nil (json t)) ∧
    maps s' = maps s ∧
    ∀ key, Get (addr l) key s' = Ok ((EmptyString, false), s').
Proof.
  intros Hl Hscan. unfold UnmarshalJSON, json_Unmarshal. rewrite Hscan.
  rewrite decide_False by done.
  eexists. split.
  { erewrite bind_Ok; [|reflexivity].
    erewrite bind_Ok; [|unfold deref; by rewrite Hl].
    erewrite bind_Ok; [|reflexivity].
    cbn beta iota. erewrite bind_Ok; [reflexivity|].
    eapply assign_Ok. exact Hl. }
  split; [simpl; apply lookup_insert_eq|]. split; [done|].
  intros key. change (EmptyString, false) with (lookup_result ∅ key).
  by eapply Get_contents; [simpl; apply lookup_insert_eq|].
Qed.

Lemma UnmarshalJSON_null_witness :
  ∃ s', UnmarshalJSON scan_flat unmarshal_other (addr 2%nat) "null" tag_store = Ok (None, s') ∧
        Get (addr 2%nat) "a" s' = Ok ((EmptyString, false), s') ∧
        maps s' !! 1%nat = Some {["a"%string := "1"%string]}.
Proof.
  destruct (UnmarshalJSON_null scan_flat unmarshal_other tag_store 2%nat _ "null"
              eq_refl eq_refl) as (s' & Hrun & _ & Hmaps & Hget).
  exists s'. split; [exact Hrun|]. split; [apply Hget|]. by rewrite Hmaps.
Defined.

(** X13: on bytes that are not valid JSON [UnmarshalJSON] returns the
    syntax error and leaves the store as it is. *)
Theorem UnmarshalJSON_invalid (scan : bytes → option JSON)
    (other : bytes → ptr → M (ptr * option error)) (s : Store) (l : loc)
    (t : SampleTags) (data : bytes) :
  tagsets s !! l = Some t →
  scan data = None →
  UnmarshalJSON scan other (addr l) data s = Ok (Some json_SyntaxError, s).
Proof.
  intros Hl Hscan. unfold UnmarshalJSON, json_Unmarshal. rewrite Hscan.
  rewrite decide_False by done.
  erewrite bind_Ok; [|reflexivity].
  erewrite bind_Ok; [|unfold deref; by rewrite Hl].
  erewrite bind_Ok; [|reflexivity].
  cbn beta iota. erewrite bind_Ok; [|eapply assign_Ok; exact Hl].
  unfold mret, M_ret. destruct t as [m j]. simpl. by rewrite set_tagsets_same.
Qed.

Lemma UnmarshalJSON_invalid_witness :
  UnmarshalJSON scan_flat unmarshal_other (addr 2%nat) "{" tag_store
  = Ok (Some json_SyntaxError, tag_store).
Proof.
  exact (UnmarshalJSON_invalid scan_flat unmarshal_other tag_store 2%nat _ "{"
           eq_refl eq_refl).
Defined.

(** ** Submetrics on any name *)

Lemma cut_before_absent (c : ascii) (s : string) :
  strings.contains_byte (cut c s).1 c = false.
Proof.
  induction s as [|a r IH]; simpl; [done|].
  case_decide as Ha; simpl; [done|]. by rewrite decide_False.
Qed.

Lemma store_eq (s1 s2 : Store) :
  ints s1 = ints s2 → maps s1 = maps s2 → mapvars s1 = mapvars s2 →
  tagsets s1 = tagsets s2 → submetrics s1 = submetrics s2 →
  metrics s1 = metrics s2 → next s1 = next s2 → s1 = s2.
Proof. destruct s1, s2. simpl. by intros -> -> -> -> -> -> ->. Qed.

(** What [NewSubmetric] returns and leaves behind, on any name. *)
Lemma NewSubmetric_run (name : string) (s : Store) :
  NewSubmetric name s
  = match cut "{" (strings.TrimSuffix name "}") with
    | (parent, None) =>
        Ok ((parent, addr (next s)),
            bump (set_submetrics
                    <[next s := mkSubmetric name EmptyString EmptyString nil nil]> s))
    | (parent, Some body) =>
        Ok ((parent, addr (S (S (S (next s))))), store_with_filter s name parent body)
    end.
Proof.
  unfold NewSubmetric. rewrite SplitN_cut.
  destruct (cut "{" (strings.TrimSuffix name "}")) as [parent [body|]].
  - rewrite decide_False by done. run. rewrite Split_pieces.
    erewrite NewSubmetric_loop_fold by (simpl; apply lookup_insert_eq).
    unfold IntoSampleTags. run. rewrite lookup_insert_eq. simpl.
    rewrite lookup_insert_eq. do 2 f_equal.
    apply store_eq; simpl; try reflexivity.
    + rewrite insert_insert_eq, foldl_clause_step, (right_id_L ∅ (∪)). reflexivity.
    + by rewrite insert_insert_eq.
  - rewrite decide_True by done. reflexivity.
Qed.

(** X14: [NewSubmetric] returns on every name.  The name is read by
    removing one closing brace from its end and cutting at the first
    opening brace.  What is before the cut is the parent name, which
    therefore has no opening brace.  Without a brace the submetric has
    the name only; otherwise what is after the cut is its suffix, and
    its tag set holds the tags of that filter body. *)
Theorem NewSubmetric_total (name : string) (s : Store) :
  ∃ parent sm r s',
    NewSubmetric name s = Ok ((parent, addr sm), s') ∧
    submetrics s' !! sm = Some r ∧
    Submetric_Name r = name ∧
    Submetric_Metric r = nil ∧
    strings.contains_byte parent "{" = false ∧
    match cut "{" (strings.TrimSuffix name "}") with
    | (p, None) => parent = p ∧ r = mkSubmetric name EmptyString EmptyString nil nil
    | (p, Some body) =>
        parent = p ∧
        ∃ st m, r = mkSubmetric name p body (addr st) nil ∧
                tagsets s' !! st = Some (mkSampleTags (addr m) None) ∧
                maps s' !! m = Some (filter_tags body)
    end.
Proof.
  rewrite NewSubmetric_run.
  pose proof (cut_before_absent "{" (strings.TrimSuffix name "}")) as Habsent.
  destruct (cut "{" (strings.TrimSuffix name "}")) as [parent [body|]].
  - eexists _, _, _, _. split; [reflexivity|].
    split; [simpl; apply lookup_insert_eq|]. repeat split; [done|].
    eexists _, _. split; [reflexivity|]. split; simpl; apply lookup_insert_eq.
  - eexists _, _, _, _. split; [reflexivity|].
    split; [simpl; apply lookup_insert_eq|]. by repeat split.
Qed.

(** X15: whatever [NewSubmetric] adds to the store, it adds at new
    addresses: every object at an address handed out before is as it
    was, and no metric or [int] variable is touched. *)
Theorem NewSubmetric_frame (name parent : string) (sm : ptr) (s s' : Store) :
  NewSubmetric name s = Ok ((parent, sm), s') →
  ints s' = ints s ∧ metrics s' = metrics s ∧ (next s ≤ next s')%nat ∧
  ∀ l, (l < next s)%nat →
       maps s' !! l = maps s !! l ∧
       mapvars s' !! l = mapvars s !! l ∧
       tagsets s' !! l = tagsets s !! l ∧
       submetrics s' !! l = submetrics s !! l.
Proof.
  rewrite NewSubmetric_run.
  destruct (cut "{" (strings.TrimSuffix name "}")) as [p [body|]];
    intros [= _ _ <-]; simpl;
    (split; [done|]); (split; [done|]); (split; [lia|]);
    intros l Hl; rewrite ?lookup_insert_ne by lia; done.
Qed.

Lemma NewSubmetric_frame_witness :
  ∃ parent sm s',
    NewSubmetric "m{a:2}" tag_store = Ok ((parent, sm), s') ∧
    maps s' !! 1%nat = maps tag_store !! 1%nat ∧
    tagsets s' !! 2%nat = tagsets tag_store !! 2%nat.
Proof.
  destruct (NewSubmetric "m{a:2}" tag_store) as [[[parent sm] s']|] eqn:Hrun;
    [|discriminate Hrun].
  destruct (NewSubmetric_frame _ _ _ _ _ Hrun) as (_ & _ & _ & Hframe).
  exists parent, sm, s'. split; [reflexivity|].
  destruct (Hframe 1%nat) as (Hmaps & _); [simpl; lia|].
  destruct (Hframe 2%nat) as (_ & _ & Htags & _); [simpl; lia|].
  by split.
Defined.

(** ** Metrics *)

(** X16: for a type outside the enumeration [New] leaves the store as it
    is.  For a type of the enumeration it adds one metric at the next
    address and nothing else; the metric is not tainted, has no
    submetrics and no thresholds set, and its type is one that
    [MarshalJSON] encodes. *)
Theorem New_allocates (name : string) (typ : MetricType) (t : list ValueType)
    (s : Store) :
  (typ ∉ metric_types → New name typ t s = Ok (nil, s)) ∧
  (typ ∈ metric_types →
   ∃ m, New name typ t s = Ok (addr (next s), bump (set_metrics <[next s := m]> s)) ∧
        Metric_Tainted m = mkNullBool false false ∧
        Metric_Submetrics m = [] ∧
        Metric_Sub m = Submetric_zero ∧
        MetricType_.MarshalJSON (Metric_Type m) = (Some (MetricType_.String typ), None)).
Proof.
  unfold metric_types. split.
  - rewrite !not_elem_of_cons. intros (?&?&?&?&_).
    unfold New. by repeat (case_decide; [done|]).
  - rewrite !elem_of_cons, elem_of_nil.
    intros [->|[->|[->|[->|[]]]]]; eexists; (split; [reflexivity|]); done.
Qed.

(** ** Trimmed keys and values *)

Lemma app_empty_r (s : string) : s +:+ EmptyString = s.
Proof. induction s as [|a s IH]; [done|]. rewrite app_cons. by f_equal. Qed.

Lemma rev_app_acc (s acc : string) :
  String.rev_app s acc = String.rev_app s EmptyString +:+ acc.
Proof.
  revert acc. induction s as [|a s IH]; intros acc; simpl; [done|].
  rewrite (IH (String a acc)), (IH (String a EmptyString)).
  by rewrite app_assoc_bytes.
Qed.

Lemma rev_cons (a : ascii) (s : string) :
  String.rev (String a s) = String.rev s +:+ String a EmptyString.
Proof. unfold String.rev. simpl. apply rev_app_acc. Qed.

Lemma rev_app_bytes (x y : string) :
  String.rev (x +:+ y) = String.rev y +:+ String.rev x.
Proof.
  induction x as [|a x IH].
  - by rewrite app_empty, app_empty_r.
  - by rewrite app_cons, !rev_cons, IH, app_assoc_bytes.
Qed.

Lemma rev_rev (s : string) : String.rev (String.rev s) = s.
Proof.
  induction s as [|a s IH]; [done|].
  by rewrite rev_cons, rev_app_bytes, IH.
Qed.

Lemma last_byte_snoc (x : string) (a : ascii) :
  last_byte (x +:+ String a EmptyString) = Some a.
Proof.
  induction x as [|b x IH]; [done|].
  rewrite app_cons. cbn [last_byte]. rewrite IH.
  by destruct x.
Qed.

Lemma last_byte_rev (s : string) : last_byte (String.rev s) = first_byte s.
Proof. destruct s as [|a s]; [done|]. by rewrite rev_cons, last_byte_snoc. Qed.

Lemma first_byte_app (x y : string) (a : ascii) :
  first_byte x = Some a → first_byte (x +:+ y) = Some a.
Proof. by destruct x. Qed.

Section strip.

Variables (sp1 : ascii → bool) (sp2 : ascii → ascii → bool)
  (sp3 : ascii → ascii → ascii → bool).

(** What [strip] returns is the end of its argument, and does not begin
    with a character that [sp1] recognises. *)
Lemma strip_spec (n : nat) :
  ∀ s, (String.length s ≤ n)%nat →
    (∃ front, s = front +:+ strings.strip sp1 sp2 sp3 s) ∧
    (∀ a, first_byte (strings.strip sp1 sp2 sp3 s) = Some a → sp1 a = false).
Proof.
  induction n as [n IH] using lt_wf_ind. intros s Hlen.
  assert (∀ (front r : string),
            s = front +:+ r → (String.length r < String.length s)%nat →
            (∃ front', s = front' +:+ strings.strip sp1 sp2 sp3 r) ∧
            (∀ a, first_byte (strings.strip sp1 sp2 sp3 r) = Some a → sp1 a = false))
    as Hrec.
  { intros front r -> Hr.
    destruct (IH (String.length r) ltac:(lia) r (le_n _)) as [[front' Hfront] Hfirst].
    split; [|done]. exists (front +:+ front').
    by rewrite app_assoc_bytes, <- Hfront. }
  assert ((∃ front, s = front +:+ s) ∧
          ∀ a b r, s = String a r → sp1 a = false → first_byte s = Some b → sp1 b = false)
    as [Hself Hhead].
  { split; [by exists EmptyString|]. by intros a b r -> Ha [= <-]. }
  destruct s as [|a [|b [|c r2]]]; cbn [strings.strip].
  - done.
  - destruct (sp1 a) eqn:Ha.
    { apply (Hrec (String a EmptyString) EmptyString); simpl; [done|lia]. }
    split; [done|]. eauto.
  - destruct (sp1 a) eqn:Ha.
    { apply (Hrec (String a EmptyString) (String b EmptyString)); simpl; [done|lia]. }
    destruct (sp2 a b) eqn:Hb.
    { apply (Hrec (String a (String b EmptyString)) EmptyString); simpl; [done|lia]. }
    split; [done|]. eauto.
  - destruct (sp1 a) eqn:Ha.
    { apply (Hrec (String a EmptyString) (String b (String c r2))); simpl; [done|lia]. }
    destruct (sp2 a b) eqn:Hb.
    { apply (Hrec (String a (String b EmptyString)) (String c r2)); simpl; [done|lia]. }
    destruct (sp3 a b c) eqn:Hc.
    { apply (Hrec (String a (String b (String c EmptyString))) r2); simpl; [done|lia]. }
    split; [done|]. eauto.
Qed.

End strip.

Lemma TrimSpace_ends (s : string) : no_space_ends (strings.TrimSpace s).
Proof.
  unfold strings.TrimSpace, strings.TrimRightSpace.
  set (x := strings.TrimLeftSpace s).
  set (sp2 := λ b a, strings.space2 a b). set (sp3 := λ c b a, strings.space3 a b c).
  destruct (strip_spec strings.space1 sp2 sp3 _ (String.rev x) (le_n _))
    as [[front Hfront] Hlast].
  set (back := strings.strip strings.space1 sp2 sp3 (String.rev x)) in *.
  split.
  - intros a Ha.
    assert (x = String.rev back +:+ String.rev front) as Hx.
    { by rewrite <- rev_app_bytes, <- Hfront, rev_rev. }
    pose proof (first_byte_app _ (String.rev front) _ Ha) as Hxa.
    rewrite <- Hx in Hxa.
    destruct (strip_spec strings.space1 strings.space2 strings.space3 _ s (le_n _))
      as [_ Hfirst].
    by apply Hfirst.
  - intros a Ha. rewrite last_byte_rev in Ha. by apply Hlast.
Qed.

Lemma clause_tag_ends (clause : string) :
  no_space_ends (clause_tag clause).1 ∧ no_space_ends (clause_tag clause).2.
Proof.
  unfold clause_tag. destruct (cut ":" clause) as [k [v|]]; simpl.
  - split; apply TrimSpace_ends.
  - split; [apply TrimSpace_ends|]. by split.
Qed.

(** X17: no key and no value of the tags that [NewSubmetric] puts on a
    submetric begins or ends with an ASCII white space character. *)
Theorem NewSubmetric_tags_trimmed (name parent : string) (s s' : Store)
    (sm st m : loc) (r : Submetric) (t : SampleTags) (kv : gmap string string)
    (k v : string) :
  NewSubmetric name s = Ok ((parent, addr sm), s') →
  submetrics s' !! sm = Some r →
  Submetric_Tags r = addr st →
  tagsets s' !! st = Some t →
  tags t = addr m →
  maps s' !! m = Some kv →
  kv !! k = Some v →
  no_space_ends k ∧ no_space_ends v.
Proof.
  rewrite NewSubmetric_run.
  destruct (cut "{" (strings.TrimSuffix name "}")) as [p [body|]];
    intros [= _ <- <-]; simpl.
  - rewrite lookup_insert_eq. intros [= <-]. simpl. intros [= <-].
    rewrite lookup_insert_eq. intros [= <-]. simpl. intros [= <-].
    rewrite lookup_insert_eq. intros [= <-]. unfold filter_tags, clause_tags.
    intros Hk%elem_of_list_to_map_2. rewrite elem_of_reverse in Hk.
    apply list_elem_of_fmap in Hk as (clause & Heq & _).
    pose proof (clause_tag_ends clause) as Hends. rewrite <- Heq in Hends.
    exact Hends.
  - rewrite lookup_insert_eq. by intros [= <-].
Qed.

Lemma NewSubmetric_tags_trimmed_witness :
  no_space_ends "a" ∧ no_space_ends "1".
Proof.
  eapply (NewSubmetric_tags_trimmed "m{ a : 1 }" "m" empty_store
            (store_with_filter empty_store "m{ a : 1 }" "m" " a : 1 ")
            4%nat 3%nat 1%nat _ _ {["a"%string := "1"%string]} "a" "1");
    vm_compute; reflexivity.
Defined.

(** ** Equality of tag sets, on any two pointers *)

(** X18: [IsEqual] does not depend on the order of its two tag sets, nil
    or not, and leaves the store as it is. *)
Theorem IsEqual_symmetric (s : Store) (p q : ptr) :
  tagset_ok s p →
  tagset_ok s q →
  ∃ eq, IsEqual p q s = Ok (eq, s) ∧ IsEqual q p s = Ok (eq, s).
Proof.
  destruct p as [|a], q as [|b]; simpl.
  - intros _ _. by exists true.
  - intros _ _. by exists false.
  - intros _ _. by exists false.
  - intros (ta & ma & Ha & Hma) (tb & mb & Hb & Hmb).
    exists (bool_decide (ma = mb)). split; [by eapply IsEqual_run|].
    erewrite IsEqual_run by done. do 2 f_equal.
    apply bool_decide_ext. split; by intros ->.
Qed.

Lemma IsEqual_symmetric_witness :
  ∃ eq, IsEqual (addr 2%nat) (addr 4%nat) tag_store = Ok (eq, tag_store) ∧
        IsEqual (addr 4%nat) (addr 2%nat) tag_store = Ok (eq, tag_store).
Proof.
  apply (IsEqual_symmetric tag_store (addr 2%nat) (addr 4%nat)).
  - by exists (mkSampleTags (addr 1%nat) None), {["a"%string := "1"%string]}.
  - by exists (mkSampleTags (addr 3%nat) None), ∅.
Defined.

(** ** Tag sets over a nil map, and the copy-on-write idiom *)

(** X19: [IntoSampleTags] on a variable that holds the nil map returns a
    tag set, not nil, whose map is nil.  [Get] finds nothing in it, and
    [IsEqual] between it and another tag set is true exactly when that
    one has no entries. *)
Theorem IntoSampleTags_nil_map (s : Store) (c b : loc) (tb : SampleTags)
    (mb : gmap string string) :
  mapvars s !! c = Some nil →
  tagsets s !! b = Some tb →
  map_contents s (tags tb) = Some mb →
  unused_from s →
  ∃ st s',
    IntoSampleTags (addr c) s = Ok (addr st, s') ∧
    tagsets s' !! st = Some (mkSampleTags nil None) ∧
    (∀ key, Get (addr st) key s' = Ok ((EmptyString, false), s')) ∧
    IsEqual (addr st) (addr b) s' = Ok (bool_decide (mb = ∅), s').
Proof.
  intros Hc Hb Hmb Hfresh. unfold IntoSampleTags. run. rewrite Hc. simpl. rewrite Hc.
  assert (b ≠ next s) as Hne.
  { intros ->. destruct (Hfresh (next s) (le_n _)) as [_ Hn].
    assert (Some tb = None) as [=]. by etrans; [symmetry; exact Hb|exact Hn]. }
  eexists _, _. split; [reflexivity|].
  split; [simpl; apply lookup_insert_eq|]. split.
  - intros key. change (EmptyString, false) with (lookup_result ∅ key).
    by eapply Get_contents; [simpl; apply lookup_insert_eq|].
  - erewrite (IsEqual_run _ _ _ _ _ ∅ mb).
    + do 2 f_equal. apply bool_decide_ext. split; by intros ->.
    + simpl. apply lookup_insert_eq.
    + simpl. rewrite lookup_insert_ne by done. exact Hb.
    + done.
    + by destruct (tags tb).
Qed.

Lemma IntoSampleTags_nil_map_witness :
  ∃ st s',
    IntoSampleTags (addr 5%nat) (set_mapvars <[5%nat := nil]> tag_store) = Ok (addr st, s') ∧
    IsEqual (addr st) (addr 4%nat) s' = Ok (true, s').
Proof.
  destruct (IntoSampleTags_nil_map (set_mapvars <[5%nat := nil]> tag_store) 5%nat 4%nat
              (mkSampleTags (addr 3%nat) None) ∅)
    as (st & s' & Hrun & _ & _ & Heq).
  - apply lookup_insert_eq.
  - reflexivity.
  - reflexivity.
  - exact tag_store_unused.
  - by exists st, s'.
Defined.

(** X20: the copy-on-write idiom.  Cloning the map of a tag set, storing
    a pair in the clone and turning the clone into a tag set gives a tag
    set with the old entries and the new pair, and leaves the entries
    of the first tag set as they were. *)
Theorem CloneTags_then_Into (s : Store) (l : loc) (t : SampleTags)
    (kv : gmap string string) (k v : string) :
  tagsets s !! l = Some t →
  map_contents s (tags t) = Some kv →
  unused_from s →
  ∃ st s',
    (m ← CloneTags (addr l);
     var ← alloc set_mapvars m;
     map_store m k v;;
     IntoSampleTags var) s = Ok (addr st, s') ∧
    addr st ≠ addr l ∧
    (∀ key, Get (addr st) key s' = Ok (lookup_result (<[k := v]> kv) key, s')) ∧
    (∀ key, Get (addr l) key s' = Ok (lookup_result kv key, s')).
Proof.
  intros Hl Hm Hfresh.
  destruct (map_contents_alloc s (tags t) kv kv Hm Hfresh) as [Hne Hm1].
  assert (l ≠ S (S (next s))) as Hl2.
  { intros ->. destruct (Hfresh (S (S (next s))) ltac:(lia)) as [_ Hn].
    assert (Some t = None) as [=]. by etrans; [symmetry; exact Hl|exact Hn]. }
  eexists _, _. split.
  { rewrite (bind_Ok _ _ _ _ _ (CloneTags_run s l t kv Hl Hm Hfresh)).
    erewrite bind_Ok; [|reflexivity].
    erewrite bind_Ok; [|apply map_store_run; simpl; apply lookup_insert_eq].
    unfold IntoSampleTags.
    erewrite bind_Ok; [|unfold deref; simpl; by rewrite lookup_insert_eq].
    erewrite bind_Ok; [|reflexivity].
    erewrite bind_Ok; [reflexivity|].
    eapply assign_Ok. simpl. apply lookup_insert_eq. }
  split; [simpl; congruence|]. split.
  - intros key. eapply Get_contents; [simpl; apply lookup_insert_eq|].
    simpl. rewrite insert_insert_eq. apply lookup_insert_eq.
  - intros key. eapply Get_contents.
    + simpl. rewrite lookup_insert_ne by done. exact Hl.
    + destruct (tags t) as [|d]; [done|]. simpl in *.
      rewrite insert_insert_eq, lookup_insert_ne by congruence.
      rewrite lookup_insert_ne in Hm1 by congruence. exact Hm1.
Qed.

Lemma CloneTags_then_Into_witness :
  ∃ st s',
    (m ← CloneTags (addr 2%nat);
     var ← alloc set_mapvars m;
     map_store m "b" "2";;
     IntoSampleTags var) tag_store = Ok (addr st, s') ∧
    Get (addr st) "b" s' = Ok (("2"%string, true), s') ∧
    Get (addr 2%nat) "b" s' = Ok ((EmptyString, false), s').
Proof.
  destruct (CloneTags_then_Into tag_store 2%nat _ {["a"%string := "1"%string]} "b" "2"
              eq_refl eq_refl tag_store_unused) as (st & s' & Hrun & _ & Hnew & Hold).
  exists st, s'. split; [exact Hrun|]. split; [apply Hnew|apply Hold].
Defined.

(** * The trimming of keys and values *)

(** ** Marks at the two ends of a string *)

Lemma made_of_app (marks : list string) (x y : string) :
  made_of marks x → made_of marks y → made_of marks (x +:+ y).
Proof.
  induction 1 as [|r x Hr Hx IH]; intros Hy; [by rewrite app_empty|].
  rewrite app_assoc_bytes. apply made_of_more; [done|]. by apply IH.
Qed.

Lemma made_of_one (marks : list string) (r : string) :
  r ∈ marks → made_of marks r.
Proof.
  intros Hr. rewrite <- (app_empty_r r). apply made_of_more; [done|]. constructor.
Qed.

Lemma made_of_rev (marks : list string) (x : string) :
  made_of (String.rev <$> marks) x → made_of marks (String.rev x).
Proof.
  induction 1 as [|r x Hr Hx IH]; [constructor|].
  apply list_elem_of_fmap in Hr as (r' & -> & Hr').
  rewrite rev_app_bytes, rev_rev. apply made_of_app; [done|]. by apply made_of_one.
Qed.

Lemma begins_with_app (r t back : string) :
  begins_with r t → begins_with r (t +:+ back).
Proof. intros [rest ->]. exists (rest +:+ back). by rewrite app_assoc_bytes. Qed.

Section strip_marks.

Variables (sp1 : ascii → bool) (sp2 : ascii → ascii → bool)
  (sp3 : ascii → ascii → ascii → bool) (marks : list string).
Hypothesis Hmarks : recognises sp1 sp2 sp3 marks.

Lemma no_mark_begins (s : string) :
  (∀ a r, s = String a r → sp1 a = false) →
  (∀ a b r, s = String a (String b r) → sp2 a b = false) →
  (∀ a b c r, s = String a (String b (String c r)) → sp3 a b c = false) →
  ∀ r, r ∈ marks → ¬ begins_with r s.
Proof.
  destruct Hmarks as (H1 & H2 & H3 & H4).
  intros Hs1 Hs2 Hs3 r Hr [rest Hrest].
  destruct (H4 r Hr) as [(a & ->)|[(a & b & ->)|(a & b & c & ->)]];
    rewrite ?app_cons, ?app_empty in Hrest.
  - apply H1 in Hr. by rewrite (Hs1 _ _ Hrest) in Hr.
  - apply H2 in Hr. by rewrite (Hs2 _ _ _ Hrest) in Hr.
  - apply H3 in Hr. by rewrite (Hs3 _ _ _ _ Hrest) in Hr.
Qed.

(** What [strip] takes away is made of marks, and what it returns does
    not begin with a mark. *)
Lemma strip_trims (n : nat) :
  ∀ s, (String.length s ≤ n)%nat →
    ∃ front, s = front +:+ strings.strip sp1 sp2 sp3 s ∧
             made_of marks front ∧
             ∀ r, r ∈ marks → ¬ begins_with r (strings.strip sp1 sp2 sp3 s).
Proof.
  induction n as [n IH] using lt_wf_ind. intros s Hlen.
  destruct Hmarks as (H1 & H2 & H3 & H4).
  assert (∀ (mark r : string),
            s = mark +:+ r → mark ∈ marks → (String.length r < String.length s)%nat →
            ∃ front, s = front +:+ strings.strip sp1 sp2 sp3 r ∧
                     made_of marks front ∧
                     ∀ r', r' ∈ marks → ¬ begins_with r' (strings.strip sp1 sp2 sp3 r))
    as Hrec.
  { intros mark r -> Hmark Hr.
    destruct (IH (String.length r) ltac:(lia) r (le_n _)) as (front & Hfront & Hmade & Hno).
    exists (mark +:+ front). split; [by rewrite app_assoc_bytes, <- Hfront|].
    split; [by apply made_of_more|done]. }
  assert (∀ t, t = s →
            (∀ a r, s = String a r → sp1 a = false) →
            (∀ a b r, s = String a (String b r) → sp2 a b = false) →
            (∀ a b c r, s = String a (String b (String c r)) → sp3 a b c = false) →
            ∃ front, s = front +:+ t ∧ made_of marks front ∧
                     ∀ r, r ∈ marks → ¬ begins_with r t) as Hstop.
  { intros t -> Hs1 Hs2 Hs3. exists EmptyString. split; [done|]. split; [constructor|].
    by apply no_mark_begins. }
  destruct s as [|a [|b [|c r2]]]; cbn [strings.strip].
  - apply Hstop; [done|by intros|by intros|by intros].
  - destruct (sp1 a) eqn:Ha.
    { apply (Hrec (String a EmptyString) EmptyString); [done|by apply H1|simpl; lia]. }
    apply Hstop; [done| |by intros|by intros]. by intros ?? [= <- _].
  - destruct (sp1 a) eqn:Ha.
    { apply (Hrec (String a EmptyString) (String b EmptyString));
        [done|by apply H1|simpl; lia]. }
    destruct (sp2 a b) eqn:Hb.
    { apply (Hrec (String a (String b EmptyString)) EmptyString);
        [done|by apply H2|simpl; lia]. }
    apply Hstop; [done| | |by intros].
    + by intros ?? [= <- _].
    + by intros ??? [= <- <- _].
  - destruct (sp1 a) eqn:Ha.
    { apply (Hrec (String a EmptyString) (String b (String c r2)));
        [done|by apply H1|simpl; lia]. }
    destruct (sp2 a b) eqn:Hb.
    { apply (Hrec (String a (String b EmptyString)) (String c r2));
        [done|by apply H2|simpl; lia]. }
    destruct (sp3 a b c) eqn:Hc.
    { apply (Hrec (String a (String b (String c EmptyString))) r2);
        [done|by apply H3|simpl; lia]. }
    apply Hstop; [done| | |].
    + by intros ?? [= <- _].
    + by intros ??? [= <- <- _].
    + by intros ???? [= <- <- <- _].
Qed.

Lemma recognises_rev :
  recognises sp1 (λ b a, sp2 a b) (λ c b a, sp3 a b c) (String.rev <$> marks).
Proof.
  destruct Hmarks as (H1 & H2 & H3 & H4).
  assert (∀ x, x ∈ String.rev <$> marks ↔ String.rev x ∈ marks) as Hrev.
  { intros x. rewrite list_elem_of_fmap. split.
    - intros (y & -> & Hy). by rewrite rev_rev.
    - intros Hx. exists (String.rev x). by rewrite rev_rev. }
  repeat split.
  - intros Ha. apply Hrev. by apply H1.
  - intros Ha%Hrev. by apply H1.
  - intros Ha. apply Hrev. by apply H2.
  - intros Ha%Hrev. by apply H2.
  - intros Ha. apply Hrev. by apply H3.
  - intros Ha%Hrev. by apply H3.
  - intros r Hr%Hrev.
    destruct (H4 _ Hr) as [(a & Ha)|[(a & b & Ha)|(a & b & c & Ha)]];
      apply (f_equal String.rev) in Ha; rewrite rev_rev in Ha; subst r; eauto 8.
Qed.

End strip_marks.

Lemma trimmed_of_ends (marks : list string) (s x t front back : string) :
  s = front +:+ x → made_of marks front →
  (∀ r, r ∈ marks → ¬ begins_with r x) →
  x = t +:+ back → made_of marks back →
  (∀ r, r ∈ marks → ¬ ends_with r t) →
  trimmed_of marks s t.
Proof.
  intros -> Hfront Hbegin -> Hback Hend. split; [by exists front, back|].
  split; [|done]. intros r Hr Ht. apply (Hbegin r Hr). by apply begins_with_app.
Qed.

(** ** White space *)

Lemma white_space_recognised :
  recognises strings.space1 strings.space2 strings.space3 white_space.
Proof.
  assert (∀ a n, N_of_ascii a = n → a = ascii_of_N n) as Hcode.
  { intros a n <-. by rewrite ascii_N_embedding. }
  assert (∀ r, r ∈ white_space ↔ bool_decide (r ∈ white_space) = true) as Hin.
  { intros r. by rewrite bool_decide_eq_true. }
  repeat split.
  - unfold strings.space1. intros Ha.
    rewrite !orb_true_iff, !andb_true_iff, !N.leb_le, !N.eqb_eq in Ha.
    assert (N_of_ascii a = 9 ∨ N_of_ascii a = 10 ∨ N_of_ascii a = 11 ∨
            N_of_ascii a = 12 ∨ N_of_ascii a = 13 ∨ N_of_ascii a = 32)%N
      as Hn by lia.
    apply Hin.
    repeat (destruct Hn as [Hn|Hn]); rewrite (Hcode _ _ Hn); reflexivity.
  - intros Ha. let x := eval vm_compute in white_space in change white_space with x in Ha.
    rewrite !elem_of_cons, elem_of_nil in Ha.
    repeat (destruct Ha as [Ha|Ha]); try done; by simplify_eq.
  - unfold strings.space2. intros Ha.
    rewrite !andb_true_iff, !orb_true_iff, !N.eqb_eq in Ha.
    destruct Ha as [Hx Hy]. apply Hin.
    rewrite (Hcode _ _ Hx).
    destruct Hy as [Hy|Hy]; rewrite (Hcode _ _ Hy); reflexivity.
  - intros Ha. let x := eval vm_compute in white_space in change white_space with x in Ha.
    rewrite !elem_of_cons, elem_of_nil in Ha.
    repeat (destruct Ha as [Ha|Ha]); try done; by simplify_eq.
  - unfold strings.space3. intros Ha.
    rewrite !orb_true_iff, !andb_true_iff, !orb_true_iff, !andb_true_iff,
      !N.leb_le, !N.eqb_eq in Ha.
    apply Hin.
    destruct Ha as [[[[[Hx Hy] Hz]|[[Hx Hy] Hz]]|[[Hx Hy] Hz]]|[[Hx Hy] Hz]];
      rewrite (Hcode _ _ Hx), (Hcode _ _ Hy).
    + rewrite (Hcode _ _ Hz). reflexivity.
    + assert (N_of_ascii c = 128 ∨ N_of_ascii c = 129 ∨ N_of_ascii c = 130 ∨
              N_of_ascii c = 131 ∨ N_of_ascii c = 132 ∨ N_of_ascii c = 133 ∨
              N_of_ascii c = 134 ∨ N_of_ascii c = 135 ∨ N_of_ascii c = 136 ∨
              N_of_ascii c = 137 ∨ N_of_ascii c = 138 ∨ N_of_ascii c = 168 ∨
              N_of_ascii c = 169 ∨ N_of_ascii c = 175)%N as Hn by lia.
      repeat (destruct Hn as [Hn|Hn]); rewrite (Hcode _ _ Hn); reflexivity.
    + rewrite (Hcode _ _ Hz). reflexivity.
    + rewrite (Hcode _ _ Hz). reflexivity.
  - intros Ha. let x := eval vm_compute in white_space in change white_space with x in Ha.
    rewrite !elem_of_cons, elem_of_nil in Ha.
    repeat (destruct Ha as [Ha|Ha]); try done; by simplify_eq.
  - intros r Hr. let x := eval vm_compute in white_space in change white_space with x in Hr.
    rewrite !elem_of_cons, elem_of_nil in Hr.
    repeat (destruct Hr as [Hr|Hr]); try done; subst r; eauto 8.
Qed.

Lemma TrimSpace_trims (s : string) : trimmed_of white_space s (strings.TrimSpace s).
Proof.
  pose proof white_space_recognised as Hws.
  destruct (strip_trims _ _ _ _ Hws _ s (le_n _)) as (front & Hfront & Hmade & Hbegin).
  unfold strings.TrimSpace, strings.TrimRightSpace.
  fold (strings.TrimLeftSpace s) in *. set (x := strings.TrimLeftSpace s) in *.
  destruct (strip_trims _ _ _ _ (recognises_rev _ _ _ _ Hws) _ (String.rev x) (le_n _))
    as (back & Hback & Hmade' & Hend).
  set (t := strings.strip _ _ _ (String.rev x)) in *.
  apply (trimmed_of_ends _ s x (String.rev t) front (String.rev back)); try done.
  - by rewrite <- rev_app_bytes, <- Hback, rev_rev.
  - by apply made_of_rev.
  - intros r Hr [front' Ht]. apply (Hend (String.rev r)).
    + apply list_elem_of_fmap. by exists r.
    + exists (String.rev front'). rewrite <- rev_app_bytes, <- Ht. by rewrite rev_rev.
Qed.

(** ** Quoting characters *)

Lemma quotes_recognised (a : ascii) :
  strings.contains_byte quotes a = true ↔ String a EmptyString ∈ quote_marks.
Proof.
  unfold quotes, quote_marks. cbn [strings.contains_byte].
  rewrite !elem_of_cons, elem_of_nil.
  repeat case_decide; subst; split; try done; eauto.
  intros [?|[?|[]]]; simplify_eq.
Qed.

Lemma quote_marks_bytes (r : string) :
  r ∈ quote_marks → ∃ a, r = String a EmptyString ∧ strings.contains_byte quotes a = true.
Proof.
  unfold quote_marks. rewrite !elem_of_cons, elem_of_nil.
  intros [->|[->|[]]]; eexists; (split; [reflexivity|]); reflexivity.
Qed.

Lemma TrimLeftFunc_trims (s : string) :
  ∃ front, s = front +:+ strings.TrimLeftFunc s (strings.contains_byte quotes) ∧
           made_of quote_marks front ∧
           ∀ r, r ∈ quote_marks →
                ¬ begins_with r (strings.TrimLeftFunc s (strings.contains_byte quotes)).
Proof.
  induction s as [|a s (front & Hfront & Hmade & Hbegin)]; cbn [strings.TrimLeftFunc].
  - exists EmptyString. split; [done|]. split; [constructor|].
    intros r (b & -> & _)%quote_marks_bytes [rest Hrest]. by rewrite app_cons in Hrest.
  - destruct (strings.contains_byte quotes a) eqn:Ha.
    + exists (String a EmptyString +:+ front). split.
      { rewrite app_assoc_bytes, <- Hfront. by rewrite app_cons, app_empty. }
      split; [|done]. apply made_of_more; [|done]. by apply quotes_recognised.
    + exists EmptyString. split; [done|]. split; [constructor|].
      intros r (b & -> & Hb)%quote_marks_bytes [rest Hrest].
      rewrite app_cons in Hrest. injection Hrest as -> _. by rewrite Hb in Ha.
Qed.

Lemma ends_with_byte (a b : ascii) (t : string) :
  ends_with (String b EmptyString) (String a t) →
  (t = EmptyString ∧ a = b) ∨ ends_with (String b EmptyString) t.
Proof.
  intros [[|c front] Hfront]; rewrite ?app_cons, ?app_empty in Hfront.
  - left. by injection Hfront as -> ->.
  - right. injection Hfront as _ ->. by exists front.
Qed.

Lemma TrimRightFunc_trims (s : string) :
  ∃ back, s = strings.TrimRightFunc s (strings.contains_byte quotes) +:+ back ∧
          made_of quote_marks back ∧
          ∀ r, r ∈ quote_marks →
               ¬ ends_with r (strings.TrimRightFunc s (strings.contains_byte quotes)).
Proof.
  induction s as [|a s (back & Hback & Hmade & Hend)]; cbn [strings.TrimRightFunc].
  - exists EmptyString. split; [done|]. split; [constructor|].
    intros r (b & -> & _)%quote_marks_bytes [[|c front] Hfront];
      by rewrite ?app_cons, ?app_empty in Hfront.
  - destruct (strings.TrimRightFunc s (strings.contains_byte quotes)) as [|c t] eqn:Ht.
    + rewrite app_empty in Hback. subst back.
      destruct (strings.contains_byte quotes a) eqn:Ha.
      * exists (String a s). split; [done|]. split.
        { change (String a s) with (String a EmptyString +:+ s).
          apply made_of_more; [|done]. by apply quotes_recognised. }
        intros r (b & -> & _)%quote_marks_bytes [[|c front] Hfront];
          by rewrite ?app_cons, ?app_empty in Hfront.
      * exists s. split; [done|]. split; [done|].
        intros r (b & -> & Hb)%quote_marks_bytes [[? ->]|Hr]%ends_with_byte.
        { by rewrite Hb in Ha. }
        destruct Hr as [[|? ?] Hr]; by rewrite ?app_cons, ?app_empty in Hr.
    + exists back. split; [by rewrite app_cons, <- Hback|]. split; [done|].
      intros r Hr Hr'. pose proof Hr as (b & -> & Hb)%quote_marks_bytes.
      apply ends_with_byte in Hr' as [[? _]|Hr']; [done|]. by apply (Hend _ Hr).
Qed.

Lemma Trim_quotes_trims (s : string) : trimmed_of quote_marks s (strings.Trim s quotes).
Proof.
  assert (strings.Trim s quotes
          = strings.TrimRightFunc (strings.TrimLeftFunc s (strings.contains_byte quotes))
              (strings.contains_byte quotes)) as ->.
  { unfold strings.Trim. case_decide as Hs; [by subst s|]. by rewrite decide_False. }
  destruct (TrimLeftFunc_trims s) as (front & Hfront & Hmade & Hbegin).
  set (x := strings.TrimLeftFunc s (strings.contains_byte quotes)) in *.
  destruct (TrimRightFunc_trims x) as (back & Hback & Hmade' & Hend).
  by apply (trimmed_of_ends _ s x _ front back).
Qed.

Lemma trimmed_trims (s : string) :
  ∃ mid, trimmed_of quote_marks s mid ∧ trimmed_of white_space mid (trimmed s).
Proof.
  exists (strings.Trim s quotes). split; [apply Trim_quotes_trims|apply TrimSpace_trims].
Qed.

(** ** The filter of a submetric *)

(** C4 (amended): for an input [name{body}], where [name] has no opening
    brace, [NewSubmetric] returns [name] as the parent name and a
    submetric with the input as name, [name] as parent, [body] as
    suffix, and a tag set over the map [filter_tags body]: the body is
    split at its commas into clauses, empty clauses are skipped, and
    every other clause gives one pair.  A clause [k:v] is cut at its
    first colon and gives the trimmed [k] and the trimmed [v]; a clause
    without a colon gives its trimmed text and the empty value.
    Trimming is done in two steps: the quoting characters at the two
    ends of the text are taken away, and then the white space at the two
    ends of what is left; a quoting character that white space separates
    from the end of the text is not taken away.  A clause of white space
    only gives the empty key.  Of several pairs with the same key the
    last one is the one in the map. *)
Theorem NewSubmetric_filter (name body : string) (s : Store) :
  strings.contains_byte name "{" = false →
  (∃ sm st m s',
     NewSubmetric (name +:+ "{" +:+ body +:+ "}") s = Ok ((name, addr sm), s') ∧
     submetrics s' !! sm
       = Some (mkSubmetric (name +:+ "{" +:+ body +:+ "}") name body (addr st) nil) ∧
     tagsets s' !! st = Some (mkSampleTags (addr m) None) ∧
     maps s' !! m = Some (filter_tags body)) ∧
  (∀ k v, strings.contains_byte k ":" = false →
          clause_tag (k +:+ ":" +:+ v) = (trimmed k, trimmed v)) ∧
  (∀ k, strings.contains_byte k ":" = false → clause_tag k = (trimmed k, EmptyString)) ∧
  (∀ text, ∃ unquoted,
     trimmed_of quote_marks text unquoted ∧
     trimmed_of white_space unquoted (trimmed text)) ∧
  (∀ clause, all_bytes strings.space1 clause = true →
             clause_tag clause = (EmptyString, EmptyString)) ∧
  (∀ before k v after,
     clause_tags body = before ++ (k, v) :: after → k ∉ after.*1 →
     filter_tags body !! k = Some v).
Proof.
  intros Hname. split; [|split; [|split; [|split; [|split]]]].
  - assert (strings.SplitN (strings.TrimSuffix (name +:+ "{" +:+ body +:+ "}") "}") "{" 2
            = [name; body]) as Hparts.
    { change ("{" +:+ body +:+ "}")%string with (String "{" body +:+ "}")%string.
      rewrite <- app_assoc_bytes, TrimSuffix_app, SplitN_cut.
      by rewrite cut_first. }
    unfold NewSubmetric. rewrite Hparts. rewrite decide_False by done.
    run. rewrite Split_pieces.
    erewrite NewSubmetric_loop_fold by (simpl; apply lookup_insert_eq).
    unfold IntoSampleTags. run. rewrite lookup_insert_eq. simpl.
    rewrite lookup_insert_eq.
    eexists _, _, _, _. split; [reflexivity|]. simpl.
    rewrite !lookup_insert_eq. repeat split.
    rewrite foldl_clause_step. by rewrite (right_id_L ∅ (∪)).
  - apply clause_tag_colon.
  - apply clause_tag_no_colon.
  - apply trimmed_trims.
  - apply clause_tag_spaces.
  - intros before k v after Htags Hk. unfold filter_tags. rewrite Htags.
    by apply last_pair_counts.
Qed.

Lemma NewSubmetric_filter_witness :
  (∃ sm st m s',
     NewSubmetric "http_req_duration{'status': 200 ,' method ':GET}" empty_store
       = Ok (("http_req_duration"%string, addr sm), s') ∧
     submetrics s' !! sm
       = Some (mkSubmetric "http_req_duration{'status': 200 ,' method ':GET}"
                 "http_req_duration" "'status': 200 ,' method ':GET" (addr st) nil) ∧
     tagsets s' !! st = Some (mkSampleTags (addr m) None) ∧
     maps s' !! m
       = Some {[ "status"%string := "200"%string; "method"%string := "GET"%string ]}) ∧
  (∃ unquoted,
     trimmed_of quote_marks "' method '" unquoted ∧
     trimmed_of white_space unquoted "method") ∧
  (∃ unquoted,
     trimmed_of quote_marks " 200 " unquoted ∧
     trimmed_of white_space unquoted "200").
Proof.
  pose proof (NewSubmetric_filter "http_req_duration" "'status': 200 ,' method ':GET"
                empty_store eq_refl) as (Hrun & _ & _ & Htrim & _).
  split; [exact Hrun|]. split; [exact (Htrim "' method '"%string)|exact (Htrim " 200 "%string)].
Defined.

(** C4 as stated fails: in the clause [key: 'value'] the value is the
    text after the colon, a space and the quoted word.  It ends with a
    quoting character, which is taken away, and begins with a space,
    which is taken away after that; the quoting character behind the
    space stays, and so the value in the map begins with a quoting
    character: it is not the text with quoting characters and white
    space taken away at its two ends. *)
Lemma NewSubmetric_quote_kept :
  (∃ sm st s',
     NewSubmetric "m{key: 'value'}" empty_store = Ok (("m"%string, addr sm), s') ∧
     submetrics s' !! sm
       = Some (mkSubmetric "m{key: 'value'}" "m" "key: 'value'" (addr st) nil) ∧
     tagsets s' !! st = Some (mkSampleTags (addr 1%nat) None) ∧
     maps s' !! 1%nat = Some {[ "key"%string := "'value"%string ]}) ∧
  clause_tag "key: 'value'" = ("key"%string, "'value"%string) ∧
  ¬ trimmed_of (quote_marks ++ white_space) " 'value'" "'value".
Proof.
  split; [|split].
  - eexists _, _, _. vm_compute. repeat split.
  - reflexivity.
  - intros (_ & Hbegin & _). apply (Hbegin (String squote EmptyString)).
    + apply elem_of_app. left. unfold quote_marks. set_solver.
    + by exists "value"%string.
Qed.

(** * The rendering of rates *)





(** The float written 0.12345 is the one nearest to that decimal: it is
    [m * 2^-56], and [m / 2^56] differs from [12345 / 100000] by at most
    [2^-57], half the distance to the next float. *)
Example rate_12345_nearest :
  Prim2SF rate_12345 = S754_finite false 8895509983982204 (-56) ∧
  2 * Z.abs (8895509983982204 * 100000 - 12345 * 2 ^ 56) ≤ 100000.
Proof. split; [vm_compute; reflexivity|]. vm_compute. discriminate. Qed.

(** Truncated, not rounded: 0.12349 is rendered as 12.34 percent too.
    What is truncated is the product computed in [float64].  The float
    nearest to 0.29 is below 0.29, the product is just below 2900, and
    the text is 28.99 percent.  The float nearest to 0.35 is below 0.35
    as well, but the first multiplication rounds to 35, the product is
    3500, and the text is 35.00 percent. *)
Example HumanizeValue_12349 :
  HumanizeValue (λ _, 0) (λ _, 0) (λ _, 0) (λ _, EmptyString) (λ _, EmptyString)
    (λ _, EmptyString) (addr 1%nat) rate_12349 rate_store
  = Ok ("12.34%"%string, rate_store).
Proof. vm_compute. reflexivity. Qed.

Example HumanizeValue_29 :
  HumanizeValue (λ _, 0) (λ _, 0) (λ _, 0) (λ _, EmptyString) (λ _, EmptyString)
    (λ _, EmptyString) (addr 1%nat) rate_29 rate_store
  = Ok ("28.99%"%string, rate_store).
Proof. vm_compute. reflexivity. Qed.

Example HumanizeValue_35 :
  HumanizeValue (λ _, 0) (λ _, 0) (λ _, 0) (λ _, EmptyString) (λ _, EmptyString)
    (λ _, EmptyString) (addr 1%nat) rate_35 rate_store
  = Ok ("35.00%"%string, rate_store) ∧
  Prim2SF rate_35 = S754_finite false 6305039478318694 (-54) ∧
  6305039478318694 * 100 < 35 * 2 ^ 54 ∧
  float64_trunc (rate_35 * 100 * 100)%float = Some 3500.
Proof. repeat split; vm_compute; reflexivity. Qed.
